(** * Kids educational video evaluation agent: heuristics, chunking,
      prompt assembly and response parsing

    A shallow embedding of [heuristics.py], [analysis_agent.py] and the
    frame sampling of [video_utils.py], with the parts of the Python run
    time they rely on ([str], [re], [json], [range], slices), followed by
    the properties of the specification and by further properties of the
    code.

    Conventions of the embedding:
    - a Python [str] is the list of its Unicode code points ([Z]);
    - a call that may raise returns a [result]: [Ok v] or [Raise e];
    - a Python [float] is read as the exact rational it denotes ([Q]); the
      rounding of binary64 arithmetic is not modelled. *)

From Stdlib Require Import String Ascii DecimalString.
From Stdlib Require Import List ZArith QArith Qround Qabs Bool Lia Lqa.
Import ListNotations.
Local Open Scope Z_scope.
Set Warnings "-register-all".

(* ================================================================== *)
(** * Part I: the embedding *)
(* ================================================================== *)

(** ** Python run time: strings, exceptions, results *)

Module Py.

Definition char := Z.
Definition str := list char.

Definition ord (a : ascii) : char := Z.of_N (N_of_ascii a).

(** An ASCII literal as a [str]. *)
Definition lit (s : string) : str := map ord (list_ascii_of_string s).

(** The same, where each apostrophe of the literal stands for a double
    quote (code point 34); used to write JSON texts. *)
Definition litq (s : string) : str :=
  map (fun c => if c =? 39 then 34 else c) (lit s).

Fixpoint str_eqb (a b : str) : bool :=
  match a, b with
  | [], [] => true
  | x :: a', y :: b' => (x =? y) && str_eqb a' b'
  | _, _ => false
  end.

(** Messages of [json.JSONDecodeError] (CPython 3.12 wording). *)
Inductive json_msg :=
| UnexpectedBOM          (* Unexpected UTF-8 BOM (decode using utf-8-sig) *)
| ExpectingValue         (* Expecting value *)
| ExtraData              (* Extra data *)
| ExpectingPropertyName  (* Expecting property name enclosed in double quotes *)
| ExpectingColon         (* Expecting ':' delimiter *)
| ExpectingComma         (* Expecting ',' delimiter *)
| UnterminatedString     (* Unterminated string starting at *)
| InvalidControlChar     (* Invalid control character at *)
| InvalidEscape          (* Invalid \escape *)
| InvalidUnicodeEscape.  (* Invalid \uXXXX escape *)

(** The exceptions the modelled code can raise. *)
Inductive exn :=
| ValueError (msg : str)
| JSONDecodeError (msg : json_msg)
| StopIteration
| RecursionError
| ZeroDivisionError
| KeyError (key : str)
| OSError.

(** Exception classes and the subclass relation between them:
    [json.JSONDecodeError] derives from [ValueError]. *)
Inductive exn_class :=
| cValueError | cJSONDecodeError | cStopIteration | cRecursionError
| cZeroDivisionError | cKeyError | cOSError.

Definition type_of (e : exn) : exn_class :=
  match e with
  | ValueError _ => cValueError
  | JSONDecodeError _ => cJSONDecodeError
  | StopIteration => cStopIteration
  | RecursionError => cRecursionError
  | ZeroDivisionError => cZeroDivisionError
  | KeyError _ => cKeyError
  | OSError => cOSError
  end.

Definition class_eqb (a b : exn_class) : bool :=
  match a, b with
  | cValueError, cValueError | cJSONDecodeError, cJSONDecodeError
  | cStopIteration, cStopIteration | cRecursionError, cRecursionError
  | cZeroDivisionError, cZeroDivisionError | cKeyError, cKeyError
  | cOSError, cOSError => true
  | _, _ => false
  end.

Definition issubclass (a b : exn_class) : bool :=
  class_eqb a b ||
  match a, b with
  | cJSONDecodeError, cValueError => true
  | _, _ => false
  end.

Definition isinstance (e : exn) (c : exn_class) : bool :=
  issubclass (type_of e) c.

Inductive result (A : Type) :=
| Ok (a : A)
| Raise (e : exn).
Arguments Ok {A} a.
Arguments Raise {A} e.

Definition bind {A B} (r : result A) (k : A -> result B) : result B :=
  match r with
  | Ok a => k a
  | Raise e => Raise e
  end.

(** [str.find] and [str.rfind] for a single character. *)
Fixpoint find (c : char) (s : str) : option nat :=
  match s with
  | [] => None
  | x :: t => if x =? c then Some O else option_map S (find c t)
  end.

Fixpoint rfind (c : char) (s : str) : option nat :=
  match s with
  | [] => None
  | x :: t =>
      match rfind c t with
      | Some j => Some (S j)
      | None => if x =? c then Some O else None
      end
  end.

(** Slices [l[lo:hi]], [l[lo:]] and [l[:hi]]: a negative index counts
    from the end, and both ends are clamped to the list. *)
Definition slice_index (len i : Z) : Z :=
  Z.max 0 (Z.min len (if i <? 0 then i + len else i)).

Definition slice {A} (l : list A) (lo hi : Z) : list A :=
  let n := Z.of_nat (length l) in
  let a := slice_index n lo in
  let b := slice_index n hi in
  firstn (Z.to_nat (b - a)) (skipn (Z.to_nat a) l).

Definition slice_from {A} (l : list A) (lo : Z) : list A :=
  skipn (Z.to_nat (slice_index (Z.of_nat (length l)) lo)) l.

Definition slice_to {A} (l : list A) (hi : Z) : list A :=
  firstn (Z.to_nat (slice_index (Z.of_nat (length l)) hi)) l.

(** [sep.join(parts)]. *)
Fixpoint join (sep : str) (parts : list str) : str :=
  match parts with
  | [] => []
  | [p] => p
  | p :: rest => p ++ sep ++ join sep rest
  end.

Fixpoint starts_with (p s : str) : bool :=
  match p, s with
  | [], _ => true
  | x :: p', y :: s' => (x =? y) && starts_with p' s'
  | _ :: _, [] => false
  end.

(** [str.isspace] for one character: the Unicode white space. *)
Definition isspace (c : char) : bool :=
  ((9 <=? c) && (c <=? 13)) || ((28 <=? c) && (c <=? 32))
  || (c =? 133) || (c =? 160) || (c =? 5760)
  || ((8192 <=? c) && (c <=? 8202))
  || (c =? 8232) || (c =? 8233) || (c =? 8239) || (c =? 8287)
  || (c =? 12288).

(** The maximal runs of characters that satisfy [p], left to right;
    [cur] is the run being read. *)
Definition emit (cur : str) : list str :=
  match cur with
  | [] => []
  | _ :: _ => [cur]
  end.

Fixpoint runs (p : char -> bool) (s : str) (cur : str) : list str :=
  match s with
  | [] => emit cur
  | c :: t =>
      if p c then runs p t (cur ++ [c])
      else emit cur ++ runs p t []
  end.

(** [s.split()] without arguments: the runs of characters that are not
    white space. *)
Definition split (s : str) : list str :=
  runs (fun c => negb (isspace c)) s [].

(** [s.strip()]. *)
Fixpoint lstrip (s : str) : str :=
  match s with
  | c :: t => if isspace c then lstrip t else s
  | [] => []
  end.

Definition strip (s : str) : str := rev (lstrip (rev (lstrip s))).

(** [s.replace(a, b)] for single characters. *)
Definition replace_char (a b : char) (s : str) : str :=
  map (fun c => if c =? a then b else c) s.

(** [str(n)] for an [int]. *)
Definition str_of_int (n : Z) : str :=
  lit (NilZero.string_of_int (Z.to_int n)).

(** [range(start, stop, step)], as the list of its elements. *)
Definition range_length (start stop step : Z) : Z :=
  if 0 <? step then
    if start <? stop then 1 + (stop - 1 - start) / step else 0
  else
    if stop <? start then 1 + (start - 1 - stop) / (- step) else 0.

Definition range (start stop step : Z) : result (list Z) :=
  if step =? 0 then Raise (ValueError (lit "range() arg 3 must not be zero"))
  else Ok (map (fun k => start + Z.of_nat k * step)
             (seq 0 (Z.to_nat (range_length start stop step)))).

(** Exact arithmetic for [float]: [a / b] raises on a zero divisor. *)
Definition truediv (a b : Q) : result Q :=
  if Qeq_bool b 0 then Raise ZeroDivisionError else Ok (a / b)%Q.

(** [max(a, b)] and [abs(x)] on floats. *)
Definition max (a b : Q) : Q := if Qle_bool b a then a else b.
Definition abs (x : Q) : Q := Qabs x.

(** [sum(xs)]: the additions run from the left, starting at 0. *)
Definition sum (xs : list Q) : Q := fold_left Qplus xs 0%Q.
Definition sum_int (xs : list Z) : Z := fold_left Z.add xs 0.

(** The conversions between binary floats and decimals, which exact
    arithmetic does not determine: [round(x, ndigits)], [repr(x)] and
    [format(x, ".1f")]. *)
Record float_ops := {
  round : Q -> Z -> Q;
  float_repr : Q -> str;
  format_1f : Q -> str
}.

(** A stand-in for these conversions, exact on decimals, with which the
    examples run: rounding to the nearest decimal and to the even one on a
    tie, and printing with at most four decimal places. *)
Definition round_half_even (q : Q) : Z :=
  let f := Qfloor q in
  match Qcompare (q - inject_Z f) (1 # 2) with
  | Lt => f
  | Gt => f + 1
  | Eq => if Z.even f then f else f + 1
  end.

Definition round_decimal (x : Q) (ndigits : Z) : Q :=
  let scale := inject_Z (10 ^ ndigits) in
  (inject_Z (round_half_even (x * scale)) / scale)%Q.

Definition format_fixed (ndigits : Z) (x : Q) : str :=
  let scale := 10 ^ ndigits in
  let n := round_half_even (Qabs x * inject_Z scale) in
  (if Qle_bool 0 x then [] else lit "-")
    ++ str_of_int (n / scale) ++ lit "."
    ++ tl (str_of_int (scale + n mod scale)).

Fixpoint drop_zeros (rev_digits : str) : str :=
  match rev_digits with
  | c :: (c' :: _) as t =>
      if (c =? 48) && negb (c' =? 46) then drop_zeros t else rev_digits
  | _ => rev_digits
  end.

Definition decimal_floats : float_ops := {|
  round := round_decimal;
  float_repr := fun x => rev (drop_zeros (rev (format_fixed 4 x)));
  format_1f := format_fixed 1
|}.

(** What the interpreter's Unicode tables decide: [str.lower] and
    [str.isalnum]. *)
Record unicode := {
  lower : str -> str;
  isalnum : char -> bool;
  lower_empty : lower [] = []
}.

(** The tables on ASCII text, where they are elementary. *)
Definition ascii_tables : unicode := {|
  lower := map (fun c => if (65 <=? c) && (c <=? 90) then c + 32 else c);
  isalnum := fun c =>
    ((48 <=? c) && (c <=? 57)) || ((65 <=? c) && (c <=? 90))
    || ((97 <=? c) && (c <=? 122));
  lower_empty := eq_refl
|}.

End Py.
Import Py.

Notation "x <- r ;; k" := (bind r (fun x => k))
  (at level 61, r at next level, right associativity).
Notation "' p <- r ;; k" := (bind r (fun x => let p := x in k))
  (at level 61, p pattern, r at next level, right associativity).

(** ** [re.search(r"\{.*\}", content, re.S)] *)

Module Re.

Definition lbrace : char := 123.
Definition rbrace : char := 125.

(** The tail [.*\}] of the pattern, matched at the head of [s].  With
    [re.S] the dot accepts every character.  The star is greedy: it first
    takes one more character and lets the rest of the pattern match; only
    when that fails does the matcher try the closing brace here. *)
Fixpoint match_dotstar_rbrace (s : str) : option str :=
  match s with
  | [] => None
  | c :: t =>
      match match_dotstar_rbrace t with
      | Some m => Some (c :: m)
      | None => if c =? rbrace then Some [c] else None
      end
  end.

(** The whole pattern anchored at the head of [s]. *)
Definition match_here (s : str) : option str :=
  match s with
  | [] => None
  | c :: t =>
      if c =? lbrace then option_map (cons c) (match_dotstar_rbrace t)
      else None
  end.

(** [re.search]: the match at the leftmost position that has one;
    the result is [match.group(0)]. *)
Fixpoint search (s : str) : option str :=
  match match_here s with
  | Some m => Some m
  | None =>
      match s with
      | [] => None
      | _ :: t => search t
      end
  end.

End Re.

(** ** [json.loads]

    After [Lib/json/decoder.py] and [Lib/json/scanner.py] (default decoder:
    strict strings, no hooks).  A float keeps its lexeme, from which
    [float()] computes the number, and an integer is unbounded (the limit
    that recent interpreters put on the number of digits [int()] reads is
    not modelled).  [depth] is the number of nested containers the
    interpreter stack still allows; going deeper raises [RecursionError]. *)

Module Json.

Inductive value :=
| VNone
| VBool (b : bool)
| VInt (n : Z)
| VFloat (lexeme : str)
| VStr (s : str)
| VList (items : list value)
| VDict (items : list (str * value)).

(** [d[k] = v] on an insertion-ordered dict, and [dict(pairs)]. *)
Fixpoint dict_setitem (d : list (str * value)) (k : str) (v : value) :=
  match d with
  | [] => [(k, v)]
  | (k', v') :: t =>
      if str_eqb k k' then (k', v) :: t else (k', v') :: dict_setitem t k v
  end.

Definition dict (pairs : list (str * value)) : list (str * value) :=
  fold_left (fun d kv => dict_setitem d (fst kv) (snd kv)) pairs [].

(** [WHITESPACE]: a run of spaces, tabs, line feeds, carriage returns. *)
Definition is_ws (c : char) : bool :=
  (c =? 32) || (c =? 9) || (c =? 10) || (c =? 13).

Fixpoint skip_ws (s : str) : str :=
  match s with
  | c :: t => if is_ws c then skip_ws t else s
  | [] => []
  end.

Definition is_digit (c : char) : bool := (48 <=? c) && (c <=? 57).

Fixpoint span_digits (s : str) : str * str :=
  match s with
  | c :: t =>
      if is_digit c then let (ds, r) := span_digits t in (c :: ds, r)
      else ([], s)
  | [] => ([], [])
  end.

(** [int(digits)] for a run of ASCII digits. *)
Definition int_of_digits (ds : str) : Z :=
  fold_left (fun acc c => 10 * acc + (c - 48)) ds 0.

(** [NUMBER_RE]: an optional minus sign and either a single zero or a
    digit from 1 to 9 followed by digits; then, optionally, a dot and at
    least one digit; then, optionally, e or E, an optional sign and at least
    one digit.  Each group comes with the text left after it. *)
Definition match_integer (s : str) : option (bool * str * str) :=
  let (neg, s1) :=
    match s with
    | c :: t => if c =? 45 then (true, t) else (false, s)
    | [] => (false, s)
    end in
  match s1 with
  | c :: t =>
      if c =? 48 then Some (neg, [c], t)
      else if is_digit c then
        let (ds, r) := span_digits t in Some (neg, c :: ds, r)
      else None
  | [] => None
  end.

Definition match_frac (s : str) : option (str * str) :=
  match s with
  | c :: t =>
      if c =? 46 then
        match span_digits t with
        | ([], _) => None
        | (ds, r) => Some (c :: ds, r)
        end
      else None
  | [] => None
  end.

Definition match_exp (s : str) : option (str * str) :=
  match s with
  | c :: t =>
      if (c =? 101) || (c =? 69) then
        let (sign, t1) :=
          match t with
          | c2 :: t2 => if (c2 =? 43) || (c2 =? 45) then ([c2], t2) else ([], t)
          | [] => ([], t)
          end in
        match span_digits t1 with
        | ([], _) => None
        | (ds, r) => Some (c :: sign ++ ds, r)
        end
      else None
  | [] => None
  end.

Definition match_number (s : str) : option (value * str) :=
  match match_integer s with
  | None => None
  | Some (neg, ds, r) =>
      let integer := if neg then 45 :: ds else ds in
      let (frac, r1) :=
        match match_frac r with Some (f, r') => (f, r') | None => ([], r) end in
      let (exp, r2) :=
        match match_exp r1 with Some (e, r') => (e, r') | None => ([], r1) end in
      match frac, exp with
      | [], [] =>
          Some (VInt (if neg then - int_of_digits ds else int_of_digits ds), r2)
      | _, _ => Some (VFloat (integer ++ frac ++ exp), r2)
      end
  end.

(** [BACKSLASH]: the one-letter escapes. *)
Definition backslash (c : char) : option char :=
  if c =? 34 then Some 34            (* quote *)
  else if c =? 92 then Some 92       (* backslash *)
  else if c =? 47 then Some 47       (* slash *)
  else if c =? 98 then Some 8        (* b *)
  else if c =? 102 then Some 12      (* f *)
  else if c =? 110 then Some 10      (* n *)
  else if c =? 114 then Some 13      (* r *)
  else if c =? 116 then Some 9       (* t *)
  else None.

Definition hex_digit (c : char) : option Z :=
  if (48 <=? c) && (c <=? 57) then Some (c - 48)
  else if (97 <=? c) && (c <=? 102) then Some (c - 87)
  else if (65 <=? c) && (c <=? 70) then Some (c - 55)
  else None.

(** [_decode_uXXXX]: four hexadecimal digits. *)
Definition hex4 (a b c d : char) : option Z :=
  match hex_digit a, hex_digit b, hex_digit c, hex_digit d with
  | Some x, Some y, Some z, Some w => Some (((x * 16 + y) * 16 + z) * 16 + w)
  | _, _, _, _ => None
  end.

Definition is_high_surrogate (u : Z) : bool := (55296 <=? u) && (u <=? 56319).
Definition is_low_surrogate (u : Z) : bool := (56320 <=? u) && (u <=? 57343).
Definition join_surrogates (hi lo : Z) : Z :=
  65536 + Z.lor (Z.shiftl (hi - 55296) 10) (lo - 56320).

(** [py_scanstring(s, end, strict=True)]: [s] starts after the opening
    quote; [acc] holds the characters decoded so far. *)
Fixpoint scanstring (s : str) (acc : str) : result (str * str) :=
  match s with
  | [] => Raise (JSONDecodeError UnterminatedString)
  | c :: t =>
      if c =? 34 then Ok (acc, t)
      else if c =? 92 then
        match t with
        | [] => Raise (JSONDecodeError UnterminatedString)
        | e :: t1 =>
            if e =? 117 then
              match t1 with
              | a :: b :: c1 :: d :: t2 =>
                  match hex4 a b c1 d with
                  | None => Raise (JSONDecodeError InvalidUnicodeEscape)
                  | Some uni =>
                      if is_high_surrogate uni then
                        match t2 with
                        | b1 :: u1 :: t3 =>
                            if (b1 =? 92) && (u1 =? 117) then
                              match t3 with
                              | a' :: b' :: c' :: d' :: t4 =>
                                  match hex4 a' b' c' d' with
                                  | None =>
                                      Raise (JSONDecodeError InvalidUnicodeEscape)
                                  | Some uni2 =>
                                      if is_low_surrogate uni2
                                      then scanstring t4
                                             (acc ++ [join_surrogates uni uni2])
                                      else scanstring t2 (acc ++ [uni])
                                  end
                              | _ => Raise (JSONDecodeError InvalidUnicodeEscape)
                              end
                            else scanstring t2 (acc ++ [uni])
                        | _ => scanstring t2 (acc ++ [uni])
                        end
                      else scanstring t2 (acc ++ [uni])
                  end
              | _ => Raise (JSONDecodeError InvalidUnicodeEscape)
              end
            else
              match backslash e with
              | Some ch => scanstring t1 (acc ++ [ch])
              | None => Raise (JSONDecodeError InvalidEscape)
              end
        end
      else if c <? 32 then Raise (JSONDecodeError InvalidControlChar)
      else scanstring t (acc ++ [c])
  end.

(** Callers of [scan_once] turn its [StopIteration] into a decode error. *)
Definition catch_stop {A} (r : result A) : result A :=
  match r with
  | Raise StopIteration => Raise (JSONDecodeError ExpectingValue)
  | _ => r
  end.

Section Containers.
Variable scan_once : str -> result (value * str).

(** The [while True] loop of [JSONArray]; [s] is at the next item.  Each
    round consumes input; [None] stands for a loop that has used up its
    [fuel], which does not happen with more fuel than characters. *)
Fixpoint array_items (fuel : nat) (s : str) (values : list value)
  : option (result (value * str)) :=
  match fuel with
  | O => None
  | S fuel' =>
      match catch_stop (scan_once s) with
      | Raise e => Some (Raise e)
      | Ok (v, r) =>
          match skip_ws r with
          | c :: r1 =>
              if c =? 93 then Some (Ok (VList (values ++ [v]), r1))
              else if c =? 44
              then array_items fuel' (skip_ws r1) (values ++ [v])
              else Some (Raise (JSONDecodeError ExpectingComma))
          | [] => Some (Raise (JSONDecodeError ExpectingComma))
          end
      end
  end.

Definition run_loop {A} (o : option (result A)) : result A :=
  match o with
  | Some r => r
  | None => Raise RecursionError
  end.

(** [JSONArray]: [s] starts after the opening bracket. *)
Definition parse_array (s : str) : result (value * str) :=
  let s1 := skip_ws s in
  if starts_with [93] s1 then Ok (VList [], skipn 1 s1)
  else run_loop (array_items (S (length s1)) s1 []).

(** The [while True] loop of [JSONObject]; [s] starts after the opening
    quote of the next key. *)
Fixpoint object_items (fuel : nat) (s : str) (pairs : list (str * value))
  : option (result (value * str)) :=
  match fuel with
  | O => None
  | S fuel' =>
      match scanstring s [] with
      | Raise e => Some (Raise e)
      | Ok (key, r) =>
          match skip_ws r with
          | c :: r1 =>
              if c =? 58 then
                match catch_stop (scan_once (skip_ws r1)) with
                | Raise e => Some (Raise e)
                | Ok (v, r2) =>
                    match skip_ws r2 with
                    | c2 :: r3 =>
                        if c2 =? 125
                        then Some (Ok (VDict (dict (pairs ++ [(key, v)])), r3))
                        else if c2 =? 44 then
                          match skip_ws r3 with
                          | q :: r4 =>
                              if q =? 34
                              then object_items fuel' r4 (pairs ++ [(key, v)])
                              else Some (Raise
                                     (JSONDecodeError ExpectingPropertyName))
                          | [] => Some (Raise
                                    (JSONDecodeError ExpectingPropertyName))
                          end
                        else Some (Raise (JSONDecodeError ExpectingComma))
                    | [] => Some (Raise (JSONDecodeError ExpectingComma))
                    end
                end
              else Some (Raise (JSONDecodeError ExpectingColon))
          | [] => Some (Raise (JSONDecodeError ExpectingColon))
          end
      end
  end.

(** [JSONObject]: [s] starts after the opening brace. *)
Definition parse_object (s : str) : result (value * str) :=
  match skip_ws s with
  | c :: r =>
      if c =? 125 then Ok (VDict (dict []), r)
      else if c =? 34 then run_loop (object_items (S (length r)) r [])
      else Raise (JSONDecodeError ExpectingPropertyName)
  | [] => Raise (JSONDecodeError ExpectingPropertyName)
  end.

End Containers.

(** [scan_once(string, idx)] with [s = string[idx:]]. *)
Fixpoint scan_once (depth : nat) (s : str) {struct depth}
  : result (value * str) :=
  match s with
  | [] => Raise StopIteration
  | c :: t =>
      if c =? 34 then '(x, r) <- scanstring t [] ;; Ok (VStr x, r)
      else if c =? 123 then
        match depth with
        | O => Raise RecursionError
        | S d => parse_object (scan_once d) t
        end
      else if c =? 91 then
        match depth with
        | O => Raise RecursionError
        | S d => parse_array (scan_once d) t
        end
      else if starts_with (lit "null") s then Ok (VNone, skipn 4 s)
      else if starts_with (lit "true") s then Ok (VBool true, skipn 4 s)
      else if starts_with (lit "false") s then Ok (VBool false, skipn 5 s)
      else
        match match_number s with
        | Some vr => Ok vr
        | None =>
            if starts_with (lit "NaN") s
            then Ok (VFloat (lit "NaN"), skipn 3 s)
            else if starts_with (lit "Infinity") s
            then Ok (VFloat (lit "Infinity"), skipn 8 s)
            else if starts_with (lit "-Infinity") s
            then Ok (VFloat (lit "-Infinity"), skipn 9 s)
            else Raise StopIteration
        end
  end.

(** [JSONDecoder.decode], entered from [json.loads(s)] for a [str]. *)
Definition loads (depth : nat) (s : str) : result value :=
  if starts_with [65279] s then Raise (JSONDecodeError UnexpectedBOM)
  else
    '(obj, r) <- catch_stop (scan_once depth (skip_ws s)) ;;
    match skip_ws r with
    | [] => Ok obj
    | _ :: _ => Raise (JSONDecodeError ExtraData)
    end.

End Json.
Import Json.

(** ** heuristics.py *)

Module Heuristics.

Inductive number :=
| Int (n : Z)
| Float (x : Q).

Definition str_eq_dec : forall a b : str, {a = b} + {a <> b} :=
  list_eq_dec Z.eq_dec.

(** [d[key]] on a dict kept as the list of its items. *)
Fixpoint getitem {V} (d : list (str * V)) (key : str) : option V :=
  match d with
  | [] => None
  | (k, v) :: t => if str_eqb k key then Some v else getitem t key
  end.

Section Heuristics.
Variable U : unicode.
Variable F : float_ops.
(** [list(Image.open(path).convert("L").getdata())]: the grey levels of
    the frame stored at [path], or the exception that opening or
    decoding it raises. *)
Variable load : str -> result (list Z).

(** [\w]: alphanumeric or underscore. *)
Definition is_word (c : char) : bool := (c =? 95) || isalnum U c.

(** [re.findall(r"\b\w+\b", text)]: between two word boundaries the
    pattern takes a maximal run of word characters. *)
Definition findall_words (text : str) : list str := runs is_word text [].

Definition word_repetition_ratio (text : str) : result Q :=
  let words := findall_words (lower U text) in
  match words with
  | [] => Ok 0%Q
  | _ :: _ =>
      let unique := length (nodup str_eq_dec words) in
      q <- truediv (inject_Z (Z.of_nat unique))
                   (inject_Z (Z.of_nat (length words))) ;;
      Ok (max 0 (1 - q))
  end.

Definition speaking_speed (word_count : Z) (duration : Q) : result Q :=
  if Qle_bool duration 0 then Ok 0%Q
  else truediv (inject_Z word_count) duration.

Definition transcript_density (word_count : Z) (duration : Q) : result Q :=
  if Qle_bool duration 0 then Ok 0%Q
  else truediv (inject_Z word_count) duration.

(** The body of the [try] in [compute_visual_variance]: the average to
    append, or nothing on [continue]. *)
Definition frame_average (path : str) : result (option Q) :=
  pixels <- load path ;;
  match pixels with
  | [] => Ok None
  | _ :: _ =>
      a <- truediv (inject_Z (sum_int pixels))
                   (inject_Z (Z.of_nat (length pixels))) ;;
      Ok (Some a)
  end.

(** The [for] loop: an exception of the body is caught and the frame
    skipped. *)
Fixpoint frame_averages (frame_paths : list str) (averages : list Q)
  : list Q :=
  match frame_paths with
  | [] => averages
  | path :: rest =>
      match frame_average path with
      | Ok (Some a) => frame_averages rest (averages ++ [a])
      | Ok None => frame_averages rest averages
      | Raise _ => frame_averages rest averages
      end
  end.

Definition compute_visual_variance (frame_paths : list str) : result Q :=
  if (length frame_paths <? 2)%nat then Ok 0%Q
  else
    let averages := frame_averages frame_paths [] in
    if (length averages <? 2)%nat then Ok 0%Q
    else
      let diffs :=
        map (fun i => abs (nth i averages 0 - nth (i - 1) averages 0)%Q)
            (seq 1 (length averages - 1)) in
      truediv (sum diffs) (inject_Z (Z.of_nat (length diffs))).

Definition aggregate_heuristics
    (transcript : str) (duration : Q) (frame_paths : list str)
  : result (list (str * number)) :=
  let word_count := Z.of_nat (length (findall_words transcript)) in
  rep <- word_repetition_ratio transcript ;;
  speed <- speaking_speed word_count duration ;;
  density <- transcript_density word_count duration ;;
  variance <- compute_visual_variance frame_paths ;;
  Ok [ (lit "word_count", Int word_count);
       (lit "duration_seconds", Float duration);
       (lit "repetition_ratio", Float (round F rep 4));
       (lit "speaking_speed_wps", Float (round F speed 2));
       (lit "transcript_density_wps", Float (round F density 2));
       (lit "visual_variance", Float (round F variance 2)) ].

End Heuristics.

End Heuristics.
Import Heuristics.

(** ** rubric.py *)

Module Rubric.

Definition BRAIN_ROT_SIGNALS : list str :=
  [ lit "Repetition";
    lit "Fast cuts or overstimulation";
    lit "No clear learning goal" ].

Definition LEARNING_VALUE_SIGNALS : list str :=
  [ lit "Vocabulary building";
    lit "Concept understanding";
    lit "Curiosity sparking moments";
    lit "Social or emotional cues" ].

Definition TWENTY_FIRST_CENTURY : list str :=
  [ lit "Encourages thinking";
    lit "Active engagement";
    lit "Contextual learning" ].

Definition AI_SLOP_SIGNALS : list str :=
  [ lit "Generic phrasing";
    lit "Template storytelling";
    lit "Lack of cultural specificity" ].

End Rubric.
Import Rubric.

(** ** analysis_agent.py *)

Module AnalysisAgent.

(** [chunk_transcript(transcript, chunk_words=180)]. *)
Definition default_chunk_words : Z := 180.

Definition chunk_transcript (transcript : str) (chunk_words : Z)
  : result (list str) :=
  let words := split transcript in
  match words with
  | [] => Ok []
  | _ :: _ =>
      idxs <- range 0 (Z.of_nat (length words)) chunk_words ;;
      Ok (map (fun i => join (lit " ") (slice words i (i + chunk_words)))
            idxs)
  end.

(** [build_chunk_notes(chunks)]; [idx] is the counter of [enumerate]. *)
Fixpoint build_chunk_notes_from (idx : Z) (chunks : list str) : list str :=
  match chunks with
  | [] => []
  | chunk :: rest =>
      let preview := replace_char 10 32 (slice_to chunk 200) in
      (lit "Chunk " ++ str_of_int idx ++ lit " (~"
         ++ str_of_int (Z.of_nat (length (split chunk)))
         ++ lit " words): " ++ preview)
      :: build_chunk_notes_from (idx + 1) rest
  end.

Definition build_chunk_notes (chunks : list str) : list str :=
  build_chunk_notes_from 1 chunks.

(** The rolling summary of [run_analysis]. *)
Definition no_transcript : str := lit "No transcript available".

Definition rolling_summary (chunk_notes : list str) : str :=
  match chunk_notes with
  | [] => no_transcript
  | _ :: _ => join [10] (slice_from chunk_notes (-4))
  end.

Definition msg_no_json : str :=
  lit "Unable to find JSON in assistant response".

(** [extract_json(content)]. *)
Definition extract_json (depth : nat) (content : str) : result value :=
  match Re.search content with
  | None => Raise (ValueError msg_no_json)
  | Some m => loads depth m
  end.

(** [repr] of a list of strings that hold no quote, backslash or
    unprintable character, as the rubric lists are. *)
Definition repr_str (s : str) : str := [39] ++ s ++ [39].

Definition repr_list (l : list str) : str :=
  lit "[" ++ join (lit ", ") (map repr_str l) ++ lit "]".

(** The result of [describe_video_frames] for one frame. *)
Record frame_description := {
  frame_path : str;
  visual_description : str
}.

Definition system_prompt : str :=
  lit "You evaluate kids' educational videos for cautious parents.".

(** The triple-quoted text of [run_analysis]; it holds an em dash (code
    point 8212). *)
Definition instructions : str :=
  [10]
  ++ lit "You are a careful reviewer of children's educational content."
  ++ [10]
  ++ lit "Use transcript fragments, visual frame descriptions, and heuristics together."
  ++ [10]
  ++ lit "This is an advisory tool for parents" ++ [8212]
  ++ lit "avoid claiming certainty or diagnostics."
  ++ [10]
  ++ lit "Mention uncertainty explicitly, especially where single-frame visuals may mislead."
  ++ [10]
  ++ lit "Base judgments strictly on the provided rubric signals."
  ++ [10]
  ++ lit "Respond ONLY with JSON matching the requested schema without extra text or markdown and with Properly Capitalised Keys."
  ++ [10].

Section Agent.
Variable U : unicode.
Variable F : float_ops.
Variable load : str -> result (list Z).
(** The vision model: the reply to the request for the frame at a path,
    by the number of the request, or the exception of reading the file
    or of the call. *)
Variable vision : nat -> str -> result str.
(** The text model: the reply to a system prompt and a user content. *)
Variable generate : str -> str -> result str.

(** [str(x)] of a heuristic, and [json.dumps(heuristics)] for a dict
    with plain keys. *)
Definition str_of_number (x : number) : str :=
  match x with
  | Int n => str_of_int n
  | Float q => float_repr F q
  end.

Definition json_dumps (d : list (str * number)) : str :=
  lit "{"
  ++ join (lit ", ")
       (map (fun kv => [34] ++ fst kv ++ [34] ++ lit ": "
                       ++ str_of_number (snd kv)) d)
  ++ lit "}".

Fixpoint describe_video_frames_from (k : nat) (frame_paths : list str)
  : result (list frame_description) :=
  match frame_paths with
  | [] => Ok []
  | path :: rest =>
      text <- vision k path ;;
      results <- describe_video_frames_from (S k) rest ;;
      Ok ({| frame_path := path; visual_description := strip text |}
            :: results)
  end.

Definition describe_video_frames (frame_paths : list str)
  : result (list frame_description) :=
  describe_video_frames_from 0 frame_paths.

Fixpoint visual_notes_from (idx : Z) (frames : list frame_description)
  : list str :=
  match frames with
  | [] => []
  | frame :: rest =>
      (lit "Frame " ++ str_of_int idx ++ lit ": "
         ++ strip (visual_description frame) ++ [10])
      :: visual_notes_from (idx + 1) rest
  end.

Definition visual_summary (frames : list frame_description) : str :=
  match visual_notes_from 1 frames with
  | [] => lit "No visual descriptions available."
  | notes => join [10] notes
  end.

(** Step 5 of [run_analysis]: the user content of the request. *)
Definition prompt_content
    (language_hint : str) (duration : Q)
    (heuristics : list (str * number)) (frame_paths : list str)
    (rolling : str) (chunk_notes : list str)
    (frame_descriptions : list frame_description) : result str :=
  variance <-
    match getitem heuristics (lit "visual_variance") with
    | Some x => Ok x
    | None => Raise (KeyError (lit "visual_variance"))
    end ;;
  let content_lines :=
    [ lit "Language hint: "
        ++ match language_hint with
           | [] => lit "unspecified"
           | _ :: _ => language_hint
           end;
      lit "Duration (seconds): " ++ format_1f F duration;
      lit "Heuristics: " ++ json_dumps heuristics;
      lit "Frames sampled: "
        ++ str_of_int (Z.of_nat (length frame_paths))
        ++ lit " (visual variance " ++ str_of_number variance ++ lit ")";
      [];
      lit "Rolling transcript summary:";
      rolling;
      [];
      lit "Transcript chunks:" ]
    ++ chunk_notes
    ++ [ [];
         lit "Visual frame descriptions (single-frame, limited context):";
         visual_summary frame_descriptions;
         [];
         lit "Brain rot signals: " ++ repr_list BRAIN_ROT_SIGNALS;
         lit "Learning value signals: " ++ repr_list LEARNING_VALUE_SIGNALS;
         lit "21st century alignment: " ++ repr_list TWENTY_FIRST_CENTURY;
         lit "AI slop signals: " ++ repr_list AI_SLOP_SIGNALS;
         strip instructions;
         lit "Construct the result so that each array field contains a few short, cautious bullet-like strings.";
         lit "If any rubric category cannot be assessed, note this in `uncertainties`." ] in
  Ok (join [10] content_lines).

Definition run_analysis
    (depth : nat) (transcript : str) (duration : Q)
    (language_hint : str) (frame_paths : list str) : result value :=
  heuristics <- aggregate_heuristics U F load transcript duration
                  frame_paths ;;
  chunks <- chunk_transcript transcript default_chunk_words ;;
  let chunk_notes := build_chunk_notes chunks in
  let rolling := rolling_summary chunk_notes in
  frame_descriptions <- describe_video_frames frame_paths ;;
  content <- prompt_content language_hint duration heuristics frame_paths
               rolling chunk_notes frame_descriptions ;;
  reply <- generate system_prompt content ;;
  extract_json depth reply.

End Agent.

End AnalysisAgent.
Import AnalysisAgent.

(** ** video_utils.py *)

Module VideoUtils.

Definition msg_no_duration : str :=
  lit "Unable to determine video duration for frame sampling".

(** The rate that [sample_frames] hands to ffmpeg: [interval] is
    [max(duration / max_frames, 1)] and the rate is [1 / interval]. *)
Definition frame_rate (duration : Q) (max_frames : Z) : result Q :=
  q <- truediv duration (inject_Z max_frames) ;;
  let interval := max q 1 in
  truediv 1 interval.

Section VideoUtils.
Variable F : float_ops.
(** [float(text)] for a text that is not empty. *)
Variable float_of_str : str -> result Q.
(** [_run(command)]: the standard output of the command, or the exception
    that [subprocess.run] raises. *)
Variable run : list str -> result str.
(** [frames_dir.mkdir(parents=True, exist_ok=True)]. *)
Variable mkdir : str -> result unit.
(** [str(frames_dir / name)]. *)
Variable joinpath : str -> str -> str.
(** [sorted(frames_dir.glob("frame_*.jpg"))] once the command has run. *)
Variable glob_frames : str -> result (list str).

Definition get_video_duration (video_path : str) : result Q :=
  stdout <- run [ lit "ffprobe"; lit "-v"; lit "error";
                  lit "-show_entries"; lit "format=duration"; lit "-of";
                  lit "default=noprint_wrappers=1:nokey=1"; video_path ] ;;
  match strip stdout with
  | [] => Ok 0%Q
  | _ :: _ => float_of_str (strip stdout)
  end.

Definition sample_frames (video_path frames_dir : str) (max_frames : Z)
  : result (list str) :=
  _ <- mkdir frames_dir ;;
  duration <- get_video_duration video_path ;;
  if Qle_bool duration 0 then Raise (ValueError msg_no_duration)
  else
    fps_value <- frame_rate duration max_frames ;;
    _ <- run [ lit "ffmpeg"; lit "-y"; lit "-i"; video_path; lit "-vf";
               lit "fps=" ++ float_repr F fps_value; lit "-frames:v";
               str_of_int max_frames;
               joinpath frames_dir (lit "frame_%03d.jpg") ] ;;
    glob_frames frames_dir.

End VideoUtils.

End VideoUtils.
Import VideoUtils.

(** ** The contracts in the words of the specification *)

Module Spec.

(** The last [k] notes in their order, or all of them when there are
    fewer. *)
Definition last_notes {A} (k : nat) (notes : list A) : list A :=
  skipn (length notes - k) notes.

(** The mean grey level of the frame at [path], when it is readable. *)
Definition mean_luminance (load : str -> result (list Z)) (path : str)
  : option Q :=
  match load path with
  | Ok (p :: pixels) =>
      Some (inject_Z (sum_int (p :: pixels))
            / inject_Z (Z.of_nat (length (p :: pixels))))%Q
  | Ok [] => None
  | Raise _ => None
  end.

(** The mean grey levels of the readable frames, in the order of the
    frames. *)
Fixpoint readable_means (load : str -> result (list Z))
    (frame_paths : list str) : list Q :=
  match frame_paths with
  | [] => []
  | path :: rest =>
      match mean_luminance load path with
      | Some a => a :: readable_means load rest
      | None => readable_means load rest
      end
  end.

(** The absolute differences between consecutive values. *)
Fixpoint consecutive_diffs (xs : list Q) : list Q :=
  match xs with
  | a :: (b :: _) as rest => Qabs (b - a) :: consecutive_diffs rest
  | _ => []
  end.

Definition mean (xs : list Q) : Q :=
  (sum xs / inject_Z (Z.of_nat (length xs)))%Q.


(** The substring that runs from the first opening brace of the text to
    its last closing brace, when the latter comes after the former. *)
Definition first_to_last_brace (text : str) : option str :=
  match find Re.lbrace text, rfind Re.rbrace text with
  | Some i, Some j =>
      if (i <? j)%nat then Some (firstn (S j - i) (skipn i text)) else None
  | _, _ => None
  end.

End Spec.

(** ** Predicates of the proofs, and sample data *)

Module Aux.

(** The exceptions [json.loads] lets out. *)
Definition decode_exn (e : exn) : Prop :=
(exists m, e = JSONDecodeError m) \/ e = RecursionError.

(** The same, and the [StopIteration] of [scan_once]. *)
Definition scan_exn (e : exn) : Prop :=
decode_exn e \/ e = StopIteration.

(** What a call of the string scanner on a text of less than [k]
    characters may yield. *)
Definition scan_ok (k : nat) (res : result (str * str)) : Prop :=
  match res with
  | Ok (_, r) => (length r < k)%nat
  | Raise e => exists m, e = JSONDecodeError m
  end.

(** What a scanning step started on less than [k] characters may
    yield: a value and a shorter rest, or one of the decoder's errors. *)
Definition res_ok (P : exn -> Prop) (k : nat) (res : result (value * str))
  : Prop :=
  match res with
  | Ok (_, r) => (length r < k)%nat
  | Raise e => P e
  end.

(** The same for a loop, which moreover has not used up its fuel. *)
Definition loop_ok (k : nat) (o : option (result (value * str))) : Prop :=
  match o with
  | Some res => res_ok decode_exn k res
  | None => False
  end.

(** A word of a tokenizer: not empty, and made of [p] characters. *)
Definition word_ok (p : char -> bool) (w : str) : Prop :=
  w <> [] /\ forallb p w = true.

(** Five frames with different pixels and one mean grey level, one of
    them after a file that cannot be opened. *)
Definition five_frames (path : str) : result (list Z) :=
  if str_eqb path (lit "frame_001.jpg") then Ok [10; 20; 30]
  else if str_eqb path (lit "frame_002.jpg") then Ok [20; 20]
  else if str_eqb path (lit "frame_003.jpg") then Ok [0; 40]
  else if str_eqb path (lit "frame_004.jpg") then Ok [20]
  else if str_eqb path (lit "frame_005.jpg") then Ok [19; 21; 20; 20]
  else Raise OSError.

Definition five_paths : list str :=
  [ lit "frame_001.jpg"; lit "frame_002.jpg"; lit "missing.jpg";
    lit "frame_003.jpg"; lit "frame_004.jpg"; lit "frame_005.jpg" ].

(** Two vision models, a list of frames and what both say of them. *)
Definition vision_a (k : nat) (path : str) : result str :=
  Ok (lit " - bright primary colours ").

Definition vision_b (k : nat) (path : str) : result str :=
  Ok (lit "- bright primary colours" ++ [10]).

Definition sample_frames : list str :=
  [lit "frames/frame_001.jpg"; lit "frames/frame_002.jpg"].

Definition sample_descriptions : list frame_description :=
  [ {| frame_path := lit "frames/frame_001.jpg";
       visual_description := lit "- bright primary colours" |};
    {| frame_path := lit "frames/frame_002.jpg";
       visual_description := lit "- bright primary colours" |} ].

Definition sample_heuristics : list (str * number) :=
  [ (lit "word_count", Int 3); (lit "visual_variance", Float 0%Q) ].

End Aux.
Import Aux.

(* ================================================================== *)
(** * Part II: properties *)
(* ================================================================== *)

(** ** The JSON decoder: what it raises, and that its loops terminate *)


(** Case analysis on an innermost scrutinee of the goal, leaving calls of
    the string scanner to the induction hypothesis. *)
Ltac break_inner :=
  match goal with
  | |- context [match ?x with _ => _ end] =>
      lazymatch x with
      | context [match _ with _ => _ end] => fail
      | scanstring _ _ => fail
      | _ => destruct x eqn:?
      end
  end.

Ltac inv H := inversion H; subst; clear H.

Section JsonDecoder.

Lemma decode_exn_msg (m : json_msg) : decode_exn (JSONDecodeError m).
Proof. left. now exists m. Qed.

Lemma skip_ws_length (s : str) : (length (skip_ws s) <= length s)%nat.
Proof.
  induction s as [|c t IH]; simpl; [lia|].
  destruct (is_ws c); simpl; lia.
Qed.

Lemma span_digits_length (s ds r : str) :
  span_digits s = (ds, r) -> (length ds + length r = length s)%nat.
Proof.
  revert ds r. induction s as [|c t IH]; simpl; intros ds r H.
  - inv H. reflexivity.
  - destruct (is_digit c).
    + destruct (span_digits t) as [ds' r'] eqn:E. inv H.
      specialize (IH _ _ eq_refl). simpl. lia.
    + inv H. reflexivity.
Qed.


Lemma scan_ok_mono (k k' : nat) res :
  (k <= k')%nat -> scan_ok k res -> scan_ok k' res.
Proof. destruct res as [[x r]|e]; simpl; [lia|auto]. Qed.

Lemma scan_ok_raise (k : nat) (m : json_msg) :
  scan_ok k (Raise (JSONDecodeError m)).
Proof. simpl. eauto. Qed.

Lemma scanstring_sound (n : nat) :
  forall s acc, (length s <= n)%nat ->
    scan_ok (length s) (scanstring s acc).
Proof.
  induction n as [|n IH]; intros s acc Hn.
  - destruct s; [apply scan_ok_raise | simpl in Hn; lia].
  - destruct s as [|c t]; [apply scan_ok_raise|].
    cbn [length] in Hn.
    assert (IHt : forall u a k,
               (length u <= length t)%nat -> (length u <= k)%nat ->
               scan_ok k (scanstring u a)).
    { intros u a k Hu Hk. apply scan_ok_mono with (length u); [exact Hk|].
      apply IH. lia. }
    clear IH Hn.
    cbn [scanstring].
    destruct (c =? 34); [cbn [scan_ok length]; lia|].
    destruct (c =? 92).
    + destruct t as [|e t1]; [apply scan_ok_raise|].
      destruct (e =? 117).
      * destruct t1 as [|a [|b [|c1 [|d t2]]]]; try apply scan_ok_raise.
        destruct (hex4 a b c1 d) as [uni|]; [|apply scan_ok_raise].
        assert (IH2 : forall a0, scan_ok
                  (length (c :: e :: a :: b :: c1 :: d :: t2))
                  (scanstring t2 a0)).
        { intros a0. apply IHt; cbn [length]; lia. }
        destruct (is_high_surrogate uni); [|apply IH2].
        destruct t2 as [|b1 [|u1 t3]]; try apply IH2.
        destruct ((b1 =? 92) && (u1 =? 117)); [|apply IH2].
        destruct t3 as [|a' [|b' [|c' [|d' t4]]]]; try apply scan_ok_raise.
        destruct (hex4 a' b' c' d'); [|apply scan_ok_raise].
        destruct (is_low_surrogate z); [|apply IH2].
        apply IHt; cbn [length]; lia.
      * destruct (backslash e); [|apply scan_ok_raise].
        apply IHt; cbn [length]; lia.
    + destruct (c <? 32); [apply scan_ok_raise|].
      apply IHt; cbn [length]; lia.
Qed.

Lemma scanstring_raises (s acc : str) (e : exn) :
  scanstring s acc = Raise e -> exists m, e = JSONDecodeError m.
Proof.
  intros H. pose proof (scanstring_sound (length s) s acc (le_n _)) as P.
  now rewrite H in P.
Qed.

Lemma scanstring_consumes (s acc x r : str) :
  scanstring s acc = Ok (x, r) -> (length r < length s)%nat.
Proof.
  intros H. pose proof (scanstring_sound (length s) s acc (le_n _)) as P.
  now rewrite H in P.
Qed.

Lemma catch_stop_raises {A} (r : result A) (e : exn) :
  (forall e', r = Raise e' -> scan_exn e') ->
  catch_stop r = Raise e -> decode_exn e.
Proof.
  intros Hr H. destruct r as [a|e']; simpl in H; [discriminate|].
  destruct (Hr e' eq_refl) as [Hd|Hs].
  - destruct Hd as [[m ->]| ->]; inv H; [apply decode_exn_msg | now right].
  - subst e'. inv H. apply decode_exn_msg.
Qed.

Lemma catch_stop_ok {A} (r : result A) (a : A) :
  catch_stop r = Ok a -> r = Ok a.
Proof. destruct r as [a'|[]]; simpl; congruence. Qed.


Lemma res_ok_mono P (k k' : nat) res :
  (k <= k')%nat -> res_ok P k res -> res_ok P k' res.
Proof. destruct res as [[x r]|e]; simpl; [lia|auto]. Qed.

Lemma loop_ok_mono (k k' : nat) o :
  (k <= k')%nat -> loop_ok k o -> loop_ok k' o.
Proof. destruct o; simpl; [apply res_ok_mono|auto]. Qed.

Section Loops.
Variable scan : str -> result (value * str).
Hypothesis scan_sound : forall s, res_ok scan_exn (length s) (scan s).

Lemma catch_stop_sound (s : str) :
  res_ok decode_exn (length s) (catch_stop (scan s)).
Proof.
  pose proof (scan_sound s) as H.
  destruct (scan s) as [[v r]|e] eqn:E; simpl in *; [exact H|].
  destruct H as [H| ->]; [|apply decode_exn_msg].
  destruct H as [[m ->]| ->]; simpl; [apply decode_exn_msg | now right].
Qed.

Lemma array_items_sound (fuel : nat) :
  forall s acc, (length s < fuel)%nat ->
    loop_ok (length s) (array_items scan fuel s acc).
Proof.
  induction fuel as [|fuel IH]; intros s acc Hf; [lia|].
  cbn [array_items].
  pose proof (catch_stop_sound s) as Hs.
  destruct (catch_stop (scan s)) as [[v r]|e]; simpl in Hs; [|exact Hs].
  pose proof (skip_ws_length r) as Hw.
  destruct (skip_ws r) as [|c r1]; [apply decode_exn_msg|].
  cbn [length] in Hw.
  destruct (c =? 93); [simpl; lia|].
  destruct (c =? 44); [|apply decode_exn_msg].
  pose proof (skip_ws_length r1) as Hw1.
  apply loop_ok_mono with (length (skip_ws r1)); [lia|].
  apply IH. lia.
Qed.

Lemma object_items_sound (fuel : nat) :
  forall s acc, (length s < fuel)%nat ->
    loop_ok (length s) (object_items scan fuel s acc).
Proof.
  induction fuel as [|fuel IH]; intros s acc Hf; [lia|].
  cbn [object_items].
  pose proof (scanstring_sound (length s) s [] (le_n _)) as Hk.
  destruct (scanstring s []) as [[key r]|e]; simpl in Hk;
    [|destruct Hk as [m ->]; apply decode_exn_msg].
  pose proof (skip_ws_length r) as Hw.
  destruct (skip_ws r) as [|c r1]; [apply decode_exn_msg|].
  cbn [length] in Hw.
  destruct (c =? 58); [|apply decode_exn_msg].
  pose proof (catch_stop_sound (skip_ws r1)) as Hs.
  pose proof (skip_ws_length r1) as Hw1.
  destruct (catch_stop (scan (skip_ws r1))) as [[v r2]|e]; simpl in Hs;
    [|exact Hs].
  pose proof (skip_ws_length r2) as Hw2.
  destruct (skip_ws r2) as [|c2 r3]; [apply decode_exn_msg|].
  cbn [length] in Hw2.
  destruct (c2 =? 125); [simpl; lia|].
  destruct (c2 =? 44); [|apply decode_exn_msg].
  pose proof (skip_ws_length r3) as Hw3.
  destruct (skip_ws r3) as [|q r4]; [apply decode_exn_msg|].
  cbn [length] in Hw3.
  destruct (q =? 34); [|apply decode_exn_msg].
  apply loop_ok_mono with (length r4); [lia|].
  apply IH. lia.
Qed.

Lemma parse_array_sound (s : str) :
  res_ok decode_exn (S (length s)) (parse_array scan s).
Proof.
  unfold parse_array. cbv zeta.
  pose proof (skip_ws_length s) as Hw.
  destruct (starts_with [93] (skip_ws s)).
  - cbn [res_ok]. rewrite length_skipn. lia.
  - pose proof (array_items_sound (S (length (skip_ws s))) (skip_ws s) []
                  (Nat.lt_succ_diag_r _)) as H.
    destruct (array_items scan _ _ _) as [res|]; [|contradiction].
    simpl in *. apply res_ok_mono with (length (skip_ws s)); [lia|exact H].
Qed.

Lemma parse_object_sound (s : str) :
  res_ok decode_exn (S (length s)) (parse_object scan s).
Proof.
  unfold parse_object.
  pose proof (skip_ws_length s) as Hw.
  destruct (skip_ws s) as [|c r]; [apply decode_exn_msg|].
  cbn [length] in Hw.
  destruct (c =? 125); [simpl; lia|].
  destruct (c =? 34); [|apply decode_exn_msg].
  pose proof (object_items_sound (S (length r)) r []
                (Nat.lt_succ_diag_r _)) as H.
  destruct (object_items scan _ _ _) as [res|]; [|contradiction].
  simpl in *. apply res_ok_mono with (length r); [lia|exact H].
Qed.

(** The loops of the decoder never use up the fuel they are given. *)
Lemma array_items_fuel (s : str) (acc : list value) :
  array_items scan (S (length s)) s acc <> None.
Proof.
  pose proof (array_items_sound (S (length s)) s acc
                (Nat.lt_succ_diag_r _)) as H.
  intros E. now rewrite E in H.
Qed.

Lemma object_items_fuel (s : str) (acc : list (str * value)) :
  object_items scan (S (length s)) s acc <> None.
Proof.
  pose proof (object_items_sound (S (length s)) s acc
                (Nat.lt_succ_diag_r _)) as H.
  intros E. now rewrite E in H.
Qed.

End Loops.

Lemma match_integer_consumes (s ds r : str) (neg : bool) :
  match_integer s = Some (neg, ds, r) -> (length r < length s)%nat.
Proof.
  unfold match_integer.
  destruct s as [|c t]; [discriminate|].
  destruct (c =? 45).
  - destruct t as [|c' t']; [discriminate|].
    destruct (c' =? 48); [intros H; inv H; simpl; lia|].
    destruct (is_digit c'); [|discriminate].
    destruct (span_digits t') as [ds' r'] eqn:E. intros H; inv H.
    apply span_digits_length in E. simpl. lia.
  - destruct (c =? 48); [intros H; inv H; simpl; lia|].
    destruct (is_digit c); [|discriminate].
    destruct (span_digits t) as [ds' r'] eqn:E. intros H; inv H.
    apply span_digits_length in E. simpl. lia.
Qed.

Lemma match_frac_consumes (s f r : str) :
  match_frac s = Some (f, r) -> (length r <= length s)%nat.
Proof.
  unfold match_frac. destruct s as [|c t]; [discriminate|].
  destruct (c =? 46); [|discriminate].
  destruct (span_digits t) as [ds r'] eqn:E.
  apply span_digits_length in E.
  destruct ds; [discriminate|]. intros H; inv H. simpl in *. lia.
Qed.

Lemma match_exp_consumes (s e r : str) :
  match_exp s = Some (e, r) -> (length r <= length s)%nat.
Proof.
  unfold match_exp. destruct s as [|c t]; [discriminate|].
  destruct ((c =? 101) || (c =? 69)); [|discriminate].
  assert (Hs : forall sg t1,
             (match t with
              | c2 :: t2 =>
                  if (c2 =? 43) || (c2 =? 45) then ([c2], t2) else ([], t)
              | [] => ([], t)
              end) = (sg, t1) -> (length t1 <= length t)%nat).
  { intros sg t1. destruct t as [|c2 t2]; [intros H; inv H; lia|].
    destruct ((c2 =? 43) || (c2 =? 45)); intros H; inv H; simpl; lia. }
  destruct (match t with [] => _ | _ => _ end) as [sg t1].
  specialize (Hs sg t1 eq_refl).
  destruct (span_digits t1) as [ds r'] eqn:E.
  apply span_digits_length in E.
  destruct ds; [discriminate|]. intros H; inv H. simpl in *. lia.
Qed.

Lemma match_number_consumes (s r : str) (v : value) :
  match_number s = Some (v, r) -> (length r < length s)%nat.
Proof.
  unfold match_number.
  destruct (match_integer s) as [[[neg ds] r0]|] eqn:Ei; [|discriminate].
  apply match_integer_consumes in Ei.
  assert (Hf : forall f r1,
             (match match_frac r0 with
              | Some (f, r') => (f, r') | None => ([], r0) end) = (f, r1) ->
             (length r1 <= length r0)%nat).
  { intros f r1. destruct (match_frac r0) as [[f' r']|] eqn:E.
    - apply match_frac_consumes in E. intros H; inv H. lia.
    - intros H; inv H. lia. }
  destruct (match match_frac r0 with Some _ => _ | None => _ end)
    as [frac r1].
  specialize (Hf frac r1 eq_refl).
  assert (He : forall e r2,
             (match match_exp r1 with
              | Some (e, r') => (e, r') | None => ([], r1) end) = (e, r2) ->
             (length r2 <= length r1)%nat).
  { intros e r2. destruct (match_exp r1) as [[e' r']|] eqn:E.
    - apply match_exp_consumes in E. intros H; inv H. lia.
    - intros H; inv H. lia. }
  destruct (match match_exp r1 with Some _ => _ | None => _ end)
    as [exp r2].
  specialize (He exp r2 eq_refl).
  destruct frac; [destruct exp|]; intros H; inv H; lia.
Qed.

(** The scanner consumes input whenever it returns, and raises nothing but
    decode errors, [RecursionError] and its own [StopIteration]. *)
Lemma scan_once_sound (depth : nat) :
  forall s, res_ok scan_exn (length s) (scan_once depth s).
Proof.
  assert (Hlit : forall (c : char) (t : str) (n : nat) (v : value),
             res_ok scan_exn (length (c :: t)) (Ok (v, skipn (S n) (c :: t)))).
  { intros c t n v. cbn [res_ok]. rewrite length_skipn. simpl. lia. }
  induction depth as [|d IH]; intros [|c t]; cbn [scan_once];
    try (right; reflexivity).
  all: destruct (c =? 34);
    [ pose proof (scanstring_sound (length t) t [] (le_n _)) as Hk;
      destruct (scanstring t []) as [[x r]|e]; simpl in *;
      [lia | destruct Hk as [m ->]; left; apply decode_exn_msg] |].
  all: destruct (c =? 123);
    [ first [ left; now right
            | pose proof (parse_object_sound (scan_once d) IH t) as Hp;
              destruct (parse_object (scan_once d) t) as [[x r]|e];
              simpl in *; [lia | now left] ] |].
  all: destruct (c =? 91);
    [ first [ left; now right
            | pose proof (parse_array_sound (scan_once d) IH t) as Hp;
              destruct (parse_array (scan_once d) t) as [[x r]|e];
              simpl in *; [lia | now left] ] |].
  all: destruct (starts_with (lit "null") (c :: t)); [apply Hlit|].
  all: destruct (starts_with (lit "true") (c :: t)); [apply Hlit|].
  all: destruct (starts_with (lit "false") (c :: t)); [apply Hlit|].
  all: destruct (match_number (c :: t)) as [[v r]|] eqn:En;
    [apply match_number_consumes in En; exact En|].
  all: destruct (starts_with (lit "NaN") (c :: t)); [apply Hlit|].
  all: destruct (starts_with (lit "Infinity") (c :: t)); [apply Hlit|].
  all: destruct (starts_with (lit "-Infinity") (c :: t)); [apply Hlit|].
  all: right; reflexivity.
Qed.


Lemma decoder_loops_terminate (depth : nat) (s : str) :
  (forall acc, array_items (scan_once depth) (S (length s)) s acc <> None)
  /\ (forall acc, object_items (scan_once depth) (S (length s)) s acc <> None).
Proof.
  split; intros acc.
  - apply array_items_fuel, scan_once_sound.
  - apply object_items_fuel, scan_once_sound.
Qed.

(** More stack never changes a result other than [RecursionError]. *)
Section Deeper.
Variables scan1 scan2 : str -> result (value * str).
Hypothesis deeper :
  forall s, scan1 s <> Raise RecursionError -> scan2 s = scan1 s.

Lemma catch_stop_deeper (s : str) :
  catch_stop (scan1 s) <> Raise RecursionError ->
  catch_stop (scan2 s) = catch_stop (scan1 s).
Proof.
  intros H. rewrite deeper; [reflexivity|].
  intros E. apply H. now rewrite E.
Qed.

Lemma array_items_deeper (fuel : nat) :
  forall s acc,
    array_items scan1 fuel s acc <> Some (Raise RecursionError) ->
    array_items scan2 fuel s acc = array_items scan1 fuel s acc.
Proof.
  induction fuel as [|fuel IH]; intros s acc; [reflexivity|].
  cbn [array_items]. intros H.
  rewrite catch_stop_deeper.
  - destruct (catch_stop (scan1 s)) as [[v r]|e]; [|reflexivity].
    destruct (skip_ws r) as [|c r1]; [reflexivity|].
    destruct (c =? 93); [reflexivity|].
    destruct (c =? 44); [|reflexivity].
    apply IH, H.
  - intros E. apply H. now rewrite E.
Qed.

Lemma object_items_deeper (fuel : nat) :
  forall s acc,
    object_items scan1 fuel s acc <> Some (Raise RecursionError) ->
    object_items scan2 fuel s acc = object_items scan1 fuel s acc.
Proof.
  induction fuel as [|fuel IH]; intros s acc; [reflexivity|].
  cbn [object_items]. intros H.
  destruct (scanstring s []) as [[key r]|e]; [|reflexivity].
  destruct (skip_ws r) as [|c r1]; [reflexivity|].
  destruct (c =? 58); [|reflexivity].
  rewrite catch_stop_deeper.
  - destruct (catch_stop (scan1 (skip_ws r1))) as [[v r2]|e]; [|reflexivity].
    destruct (skip_ws r2) as [|c2 r3]; [reflexivity|].
    destruct (c2 =? 125); [reflexivity|].
    destruct (c2 =? 44); [|reflexivity].
    destruct (skip_ws r3) as [|q r4]; [reflexivity|].
    destruct (q =? 34); [|reflexivity].
    apply IH, H.
  - intros E. apply H. now rewrite E.
Qed.

Lemma parse_array_deeper (s : str) :
  parse_array scan1 s <> Raise RecursionError ->
  parse_array scan2 s = parse_array scan1 s.
Proof.
  unfold parse_array. cbv zeta.
  destruct (starts_with [93] (skip_ws s)); [reflexivity|].
  intros H. rewrite array_items_deeper; [reflexivity|].
  intros E. apply H. now rewrite E.
Qed.

Lemma parse_object_deeper (s : str) :
  parse_object scan1 s <> Raise RecursionError ->
  parse_object scan2 s = parse_object scan1 s.
Proof.
  unfold parse_object.
  destruct (skip_ws s) as [|c r]; [reflexivity|].
  destruct (c =? 125); [reflexivity|].
  destruct (c =? 34); [|reflexivity].
  intros H. rewrite object_items_deeper; [reflexivity|].
  intros E. apply H. now rewrite E.
Qed.

End Deeper.

Lemma scan_once_S (depth : nat) :
  forall s, scan_once depth s <> Raise RecursionError ->
            scan_once (S depth) s = scan_once depth s.
Proof.
  induction depth as [|d IH]; intros [|c t]; try reflexivity.
  - cbn [scan_once].
    destruct (c =? 34); [reflexivity|].
    destruct (c =? 123); [congruence|].
    destruct (c =? 91); [congruence|]. reflexivity.
  - cbn [scan_once].
    destruct (c =? 34); [reflexivity|].
    destruct (c =? 123); [apply parse_object_deeper, IH|].
    destruct (c =? 91); [apply parse_array_deeper, IH|]. reflexivity.
Qed.

Lemma scan_once_deeper (d d' : nat) (s : str) :
  (d <= d')%nat -> scan_once d s <> Raise RecursionError ->
  scan_once d' s = scan_once d s.
Proof.
  induction 1 as [|d' Hle IH]; intros H; [reflexivity|].
  rewrite scan_once_S; [auto|]. rewrite IH; auto.
Qed.

Lemma loads_deeper (d d' : nat) (s : str) :
  (d <= d')%nat -> loads d s <> Raise RecursionError ->
  loads d' s = loads d s.
Proof.
  unfold loads. intros Hle.
  destruct (starts_with [65279] s); [reflexivity|].
  intros H. rewrite (scan_once_deeper d d'); [reflexivity|exact Hle|].
  intros E. apply H. now rewrite E.
Qed.

End JsonDecoder.

(** ** Response parser *)

Section ResponseParser.

Lemma dotstar_rbrace_rfind (t : str) :
  Re.match_dotstar_rbrace t =
  option_map (fun j => firstn (S j) t) (rfind Re.rbrace t).
Proof.
  induction t as [|c t IH]; simpl; [reflexivity|].
  rewrite IH. destruct (rfind Re.rbrace t) as [j|]; simpl; [reflexivity|].
  destruct (c =? Re.rbrace); reflexivity.
Qed.

(** The regular expression search is the search of the specification. *)
Lemma search_first_to_last (s : str) :
  Re.search s = Spec.first_to_last_brace s.
Proof.
  unfold Spec.first_to_last_brace.
  induction s as [|c t IH]; [reflexivity|].
  cbn [Re.search Re.match_here find rfind].
  rewrite dotstar_rbrace_rfind.
  destruct (c =? Re.lbrace) eqn:Hc.
  - destruct (rfind Re.rbrace t) as [j|] eqn:Hr; simpl.
    + reflexivity.
    + rewrite IH.
      apply Z.eqb_eq in Hc. subst c. simpl.
      destruct (find Re.lbrace t); reflexivity.
  - rewrite IH.
    destruct (find Re.lbrace t) as [i|]; simpl; [|reflexivity].
    destruct (rfind Re.rbrace t) as [j|]; simpl.
    + reflexivity.
    + destruct (c =? Re.rbrace); reflexivity.
Qed.

Lemma find_none_notin (c : char) (s : str) :
  ~ In c s -> find c s = None.
Proof.
  induction s as [|x t IH]; simpl; intros H; [reflexivity|].
  destruct (x =? c) eqn:E.
  - apply Z.eqb_eq in E. exfalso. apply H. now left.
  - rewrite IH; [reflexivity|]. intros Hin. apply H. now right.
Qed.

Lemma extract_json_spec (depth : nat) (content : str) :
  extract_json depth content =
  match Spec.first_to_last_brace content with
  | Some sub => loads depth sub
  | None => Raise (ValueError msg_no_json)
  end.
Proof. unfold extract_json. now rewrite search_first_to_last. Qed.

Lemma extract_json_deeper (d d' : nat) (content : str) :
  (d <= d')%nat -> extract_json d content <> Raise RecursionError ->
  extract_json d' content = extract_json d content.
Proof.
  unfold extract_json. destruct (Re.search content); [|reflexivity].
  apply loads_deeper.
Qed.

(** C1. The parser decodes the substring that runs from the first opening
    brace to the last closing brace of the reply: [extract_json] is
    [json.loads] of that substring when it exists, and the ValueError for a
    reply without JSON otherwise.  On the reply made of the word noise, the
    object with key A and value the list of the string x, and the word
    trailing, that substring is the object text and the result is the
    decoded record (whenever the stack allows two nested containers).  On
    a reply that contains neither brace the parser raises the
    object-not-found ValueError, which is not a decode error. *)
Theorem extract_json_first_to_last_brace :
  (forall depth content,
      extract_json depth content =
      match Spec.first_to_last_brace content with
      | Some sub => loads depth sub
      | None => Raise (ValueError msg_no_json)
      end)
  /\ Re.search (litq "noise {'A': ['x']} trailing")
     = Some (litq "{'A': ['x']}")
  /\ (forall d,
        extract_json (S (S d)) (litq "noise {'A': ['x']} trailing")
        = Ok (VDict [(lit "A", VList [VStr (lit "x")])]))
  /\ (forall depth content,
        ~ In Re.lbrace content -> ~ In Re.rbrace content ->
        extract_json depth content = Raise (ValueError msg_no_json)
        /\ type_of (ValueError msg_no_json) <> cJSONDecodeError).
Proof.
  split; [exact extract_json_spec|].
  split; [vm_compute; reflexivity|].
  split.
  - intros d.
    rewrite (extract_json_deeper 2 (S (S d))); [| lia |];
      vm_compute; [reflexivity | discriminate].
  - intros depth content Hl Hr. split; [|discriminate].
    rewrite extract_json_spec. unfold Spec.first_to_last_brace.
    now rewrite (find_none_notin _ _ Hl).
Qed.

Lemma extract_json_first_to_last_brace_witness :
  extract_json 8 (lit "I cannot rate this video.")
  = Raise (ValueError msg_no_json)
  /\ type_of (ValueError msg_no_json) <> cJSONDecodeError.
Proof.
  apply (proj2 (proj2 (proj2 extract_json_first_to_last_brace)));
    intros H; simpl in H; repeat destruct H as [H|H];
    first [discriminate | contradiction].
Defined.



(** C10. Because the decoded text always runs to the last closing brace,
    there is a reply that holds a complete JSON object, which on its own
    decodes, followed by commentary with a closing brace in it, on which
    [extract_json] raises a decode error (extra data) instead of returning
    the object. *)
Theorem extract_json_trailing_brace_fails :
  exists (object trailing : str) (v : value),
    object = litq "{'A': 1}"
    /\ trailing = lit " (see rubric {2})"
    /\ v = VDict [(lit "A", VInt 1)]
    /\ In Re.rbrace trailing
    /\ (forall d, loads (S d) object = Ok v)
    /\ (forall d, extract_json (S d) object = Ok v)
    /\ (forall d, extract_json (S d) (object ++ trailing)
                  = Raise (JSONDecodeError ExtraData)).
Proof.
  exists (litq "{'A': 1}"), (lit " (see rubric {2})"),
    (VDict [(lit "A", VInt 1)]).
  do 3 (split; [reflexivity|]).
  split; [vm_compute; tauto|].
  split; [|split]; intros d.
  - rewrite (loads_deeper 1 (S d)); [| lia |];
      vm_compute; [reflexivity | discriminate].
  - rewrite (extract_json_deeper 1 (S d)); [| lia |];
      vm_compute; [reflexivity | discriminate].
  - rewrite (extract_json_deeper 1 (S d)); [| lia |];
      vm_compute; [reflexivity | discriminate].
Qed.

End ResponseParser.


(** ** Transcript chunker *)

Section Runs.
Variable p : char -> bool.


Lemma runs_app_word (w rest : str) :
  forall cur, forallb p w = true ->
              runs p (w ++ rest) cur = runs p rest (cur ++ w).
Proof.
  induction w as [|c w IH]; intros cur Hw; simpl.
  - now rewrite app_nil_r.
  - simpl in Hw. apply andb_prop in Hw as [Hc Hw]. rewrite Hc.
    rewrite IH by exact Hw. now rewrite <- app_assoc.
Qed.

Lemma emit_ok (cur : str) :
  forallb p cur = true -> Forall (word_ok p) (emit cur).
Proof.
  destruct cur as [|c cur]; simpl; intros H; constructor; [|constructor].
  split; [discriminate | exact H].
Qed.

Lemma runs_words_ok (s : str) :
  forall cur, forallb p cur = true -> Forall (word_ok p) (runs p s cur).
Proof.
  induction s as [|c t IH]; intros cur Hcur; simpl.
  - now apply emit_ok.
  - destruct (p c) eqn:Hc.
    + apply IH. rewrite forallb_app, Hcur. simpl. now rewrite Hc.
    + apply Forall_app. split; [now apply emit_ok | now apply IH].
Qed.

(** Tokenizing words joined by a separator gives the words back. *)
Lemma runs_join (sep : char) (ws : list str) :
  p sep = false -> Forall (word_ok p) ws -> runs p (join [sep] ws) [] = ws.
Proof.
  intros Hsep. induction ws as [|w ws IH]; intros Hws; [reflexivity|].
  inversion Hws as [|w' ws' [Hne Hw] Hrest]; subst.
  destruct ws as [|w2 ws].
  - cbn [join]. rewrite <- (app_nil_r w) at 1.
    rewrite runs_app_word by exact Hw. simpl.
    destruct w; [contradiction | reflexivity].
  - change (join [sep] (w :: w2 :: ws))
      with (w ++ [sep] ++ join [sep] (w2 :: ws)).
    rewrite runs_app_word by exact Hw.
    cbn [app runs]. rewrite Hsep, (IH Hrest).
    destruct w; [contradiction | reflexivity].
Qed.

End Runs.

Section Chunker.

Lemma split_words_ok (s : str) :
  Forall (word_ok (fun c => negb (isspace c))) (split s).
Proof. apply runs_words_ok. reflexivity. Qed.

Lemma split_join (ws : list str) :
  Forall (word_ok (fun c => negb (isspace c))) ws ->
  split (join (lit " ") ws) = ws.
Proof. apply (runs_join _ 32). reflexivity. Qed.

Lemma slice_window {A} (l : list A) (i c : Z) :
  0 <= i -> 0 <= c ->
  slice l i (i + c) = firstn (Z.to_nat c) (skipn (Z.to_nat i) l).
Proof.
  intros Hi Hc. unfold slice, slice_index. cbv zeta.
  set (n := Z.of_nat (length l)).
  assert (Hn : 0 <= n) by (unfold n; lia).
  replace (i <? 0) with false by (symmetry; apply Z.ltb_ge; lia).
  replace (i + c <? 0) with false by (symmetry; apply Z.ltb_ge; lia).
  destruct (Z_lt_le_dec i n) as [Hlt|Hge].
  - replace (Z.max 0 (Z.min n i)) with i by lia.
    assert (Hlen : length (skipn (Z.to_nat i) l) = Z.to_nat (n - i)).
    { rewrite length_skipn. unfold n. lia. }
    destruct (Z_le_gt_dec (i + c) n) as [Hle|Hgt].
    + replace (Z.max 0 (Z.min n (i + c)) - i) with c by lia. reflexivity.
    + replace (Z.max 0 (Z.min n (i + c)) - i) with (n - i) by lia.
      rewrite <- Hlen, firstn_all. symmetry. apply firstn_all2. lia.
  - assert (Hnil : skipn (Z.to_nat i) l = []).
    { apply skipn_all2. unfold n in Hge. lia. }
    rewrite Hnil, firstn_nil.
    replace (Z.max 0 (Z.min n i)) with n by lia.
    replace (Z.max 0 (Z.min n (i + c)) - n) with 0 by lia.
    reflexivity.
Qed.

(** Consecutive windows of [c] elements, enough of them to cover the
    list, concatenate to the list. *)
Lemma concat_windows {A} (c : nat) :
  forall (m : nat) (l : list A),
    (length l <= m * c)%nat ->
    concat (map (fun k => firstn c (skipn (k * c) l)) (seq 0 m)) = l.
Proof.
  induction m as [|m IH]; intros l Hl.
  - destruct l; [reflexivity | simpl in Hl; lia].
  - cbn [seq map concat]. rewrite <- seq_shift, map_map.
    rewrite (map_ext _ (fun k => firstn c (skipn (k * c) (skipn c l)))).
    + rewrite IH.
      * cbn [Nat.mul skipn]. apply firstn_skipn.
      * rewrite length_skipn. simpl in Hl. lia.
    + intros k. rewrite skipn_skipn.
      now replace (S k * c)%nat with (k * c + c)%nat by lia.
Qed.

Lemma range_length_covers (n c : Z) :
  0 < n -> 0 < c -> n <= range_length 0 n c * c.
Proof.
  intros Hn Hc. unfold range_length.
  replace (0 <? c) with true by (symmetry; apply Z.ltb_lt; lia).
  replace (0 <? n) with true by (symmetry; apply Z.ltb_lt; lia).
  pose proof (Z.div_mod (n - 1 - 0) c ltac:(lia)) as Hd.
  pose proof (Z.mod_pos_bound (n - 1 - 0) c Hc) as Hm.
  nia.
Qed.

Lemma range_length_ceiling (n c : Z) :
  0 <= n -> 0 < c ->
  range_length 0 n c = Qceiling (inject_Z n / inject_Z c).
Proof.
  intros Hn Hc. unfold range_length.
  replace (0 <? c) with true by (symmetry; apply Z.ltb_lt; lia).
  destruct c as [|pc|pc]; try lia.
  unfold Qceiling, Qfloor, Qdiv, Qinv, Qmult, Qopp, inject_Z.
  cbn [Qnum Qden]. rewrite Z.mul_1_r, Pos.mul_1_l.
  destruct (0 <? n) eqn:E.
  - apply Z.ltb_lt in E.
    pose proof (Z.div_mod (n - 1 - 0) (Z.pos pc) ltac:(lia)) as Hd.
    pose proof (Z.mod_pos_bound (n - 1 - 0) (Z.pos pc) ltac:(lia)) as Hm.
    pose proof (Z.div_mod (- n) (Z.pos pc) ltac:(lia)) as Hd'.
    pose proof (Z.mod_pos_bound (- n) (Z.pos pc) ltac:(lia)) as Hm'.
    nia.
  - apply Z.ltb_ge in E. replace n with 0 by lia. reflexivity.
Qed.

Lemma Forall_window {A} (P : A -> Prop) (l : list A) (i c : nat) :
  Forall P l -> Forall P (firstn c (skipn i l)).
Proof.
  intros H.
  assert (Hs : Forall P (skipn i l)).
  { revert i. induction H as [|x l Hx Hl IH]; intros [|i]; simpl;
      try constructor; auto. }
  revert c. induction Hs as [|x t Hx Ht IH]; intros [|c]; simpl;
    constructor; auto.
Qed.

(** With a positive window the chunker does not raise, and its chunks are
    the consecutive windows of the words, joined by spaces. *)
Lemma chunk_transcript_windows (transcript : str) (chunk_words : Z) :
  0 < chunk_words ->
  chunk_transcript transcript chunk_words =
  Ok (map (fun k => join (lit " ")
                      (firstn (Z.to_nat chunk_words)
                         (skipn (k * Z.to_nat chunk_words)
                            (split transcript))))
        (seq 0 (Z.to_nat
                  (range_length 0 (Z.of_nat (length (split transcript)))
                     chunk_words)))).
Proof.
  intros Hc. unfold chunk_transcript. cbv zeta.
  destruct (split transcript) as [|w ws] eqn:Hw.
  - unfold range_length.
    replace (0 <? chunk_words) with true by (symmetry; apply Z.ltb_lt; lia).
    reflexivity.
  - rewrite <- Hw. unfold range.
    replace (chunk_words =? 0) with false by (symmetry; apply Z.eqb_neq; lia).
    cbn [bind]. rewrite map_map. f_equal. apply map_ext. intros k.
    rewrite slice_window by lia. do 3 f_equal. lia.
Qed.

Lemma chunk_transcript_partition_windows (transcript : str) (c : nat) (m : nat) :
  (length (split transcript) <= m * c)%nat ->
  concat (map split
            (map (fun k => join (lit " ")
                             (firstn c (skipn (k * c) (split transcript))))
               (seq 0 m)))
  = split transcript.
Proof.
  intros Hm. rewrite map_map.
  rewrite (map_ext _ (fun k => firstn c (skipn (k * c) (split transcript)))).
  - now apply concat_windows.
  - intros k. apply split_join, Forall_window, split_words_ok.
Qed.

(** A window of zero words is refused by [range], and a negative one
    silently gives no chunk. *)
Example chunk_transcript_zero_window :
  chunk_transcript (lit "one two") 0
  = Raise (ValueError (lit "range() arg 3 must not be zero")).
Proof. reflexivity. Qed.

Example chunk_transcript_negative_window :
  chunk_transcript (lit "one two") (-1) = Ok [].
Proof. reflexivity. Qed.

(** C3 (amended). For every transcript and every window size of at least
    one word, [chunk_transcript] returns chunks (no error) whose words,
    concatenated in order, are exactly the words of the transcript as
    [str.split] delimits them; the number of chunks is the ceiling of the
    number of these words over the window size; and the empty transcript
    gives the empty list. *)
Theorem chunk_transcript_partition (transcript : str) (chunk_words : Z) :
  0 < chunk_words ->
  exists chunks,
    chunk_transcript transcript chunk_words = Ok chunks
    /\ concat (map split chunks) = split transcript
    /\ Z.of_nat (length chunks)
       = Qceiling (inject_Z (Z.of_nat (length (split transcript)))
                   / inject_Z chunk_words)
    /\ chunk_transcript [] chunk_words = Ok [].
Proof.
  intros Hc. eexists. split; [now apply chunk_transcript_windows|].
  set (n := Z.of_nat (length (split transcript))).
  assert (Hlen : 0 <= range_length 0 n chunk_words).
  { unfold range_length.
    replace (0 <? chunk_words) with true by (symmetry; apply Z.ltb_lt; lia).
    destruct (0 <? n) eqn:E; [|lia]. apply Z.ltb_lt in E.
    pose proof (Z.div_pos (n - 1 - 0) chunk_words ltac:(lia) Hc). lia. }
  split; [|split].
  - apply chunk_transcript_partition_windows.
    destruct (Z.eq_dec n 0) as [Hn|Hn]; [unfold n in Hn; lia|].
    pose proof (range_length_covers n chunk_words ltac:(unfold n in *; lia) Hc).
    unfold n in *. nia.
  - rewrite length_map, length_seq, Z2Nat.id by exact Hlen.
    apply range_length_ceiling; unfold n; lia.
  - reflexivity.
Qed.

Lemma chunk_transcript_partition_witness :
  exists chunks,
    chunk_transcript (lit " one two  three four five ") 2 = Ok chunks
    /\ concat (map split chunks) = split (lit " one two  three four five ")
    /\ Z.of_nat (length chunks)
       = Qceiling (inject_Z (Z.of_nat (length
                      (split (lit " one two  three four five "))))
                   / inject_Z 2)
    /\ chunk_transcript [] 2 = Ok [].
Proof.
  apply (chunk_transcript_partition (lit " one two  three four five ") 2).
  lia.
Defined.

(** C3 as stated fails when the count of words is the [word_count] of the
    heuristics, which counts the matches of the word pattern: with a
    contraction in it, a transcript of 180 blank-separated words has 181
    such matches, and makes one chunk where the ceiling is two. *)
Lemma chunk_count_is_not_ceiling_of_word_count :
  let transcript := lit "don't" ++ concat (repeat (lit " stop") 179) in
  exists chunks heuristics word_count,
    chunk_transcript transcript default_chunk_words = Ok chunks
    /\ aggregate_heuristics ascii_tables decimal_floats
         (fun _ => Raise OSError) transcript 60 [] = Ok heuristics
    /\ getitem heuristics (lit "word_count") = Some (Int word_count)
    /\ Z.of_nat (length chunks) = 1
    /\ Qceiling (inject_Z word_count / inject_Z default_chunk_words) = 2
    /\ Z.of_nat (length chunks)
       <> Qceiling (inject_Z word_count / inject_Z default_chunk_words).
Proof.
  cbv zeta. eexists. eexists. eexists.
  split; [vm_compute; reflexivity|].
  split; [vm_compute; reflexivity|].
  split; [vm_compute; reflexivity|].
  split; [vm_compute; reflexivity|].
  split; [vm_compute; reflexivity|].
  vm_compute. discriminate.
Qed.

End Chunker.



(** ** Rolling summary *)

Section RollingSummary.

Lemma slice_from_last {A} (l : list A) (k : nat) :
  (0 < k)%nat -> slice_from l (- Z.of_nat k) = Spec.last_notes k l.
Proof.
  intros Hk. unfold slice_from, slice_index, Spec.last_notes. f_equal.
  destruct (- Z.of_nat k <? 0) eqn:E.
  - apply Z.ltb_lt in E. lia.
  - apply Z.ltb_ge in E. lia.
Qed.

(** C8. The rolling summary is the placeholder when there is no chunk
    note, and otherwise the last four notes joined by a newline.  These
    are at most four notes, they are the end of the list of notes in its
    order, and they are all the notes when there are fewer than four. *)
Theorem rolling_summary_last_four (chunk_notes : list str) :
  rolling_summary chunk_notes =
    match chunk_notes with
    | [] => lit "No transcript available"
    | _ :: _ => join [10] (Spec.last_notes 4 chunk_notes)
    end
  /\ (length (Spec.last_notes 4 chunk_notes) <= 4)%nat
  /\ (exists earlier, chunk_notes = earlier ++ Spec.last_notes 4 chunk_notes)
  /\ ((length chunk_notes < 4)%nat ->
      Spec.last_notes 4 chunk_notes = chunk_notes).
Proof.
  split; [|split; [|split]].
  - unfold rolling_summary. destruct chunk_notes; [reflexivity|].
    now rewrite (slice_from_last _ 4) by lia.
  - unfold Spec.last_notes. rewrite length_skipn. lia.
  - exists (firstn (length chunk_notes - 4) chunk_notes).
    unfold Spec.last_notes. now rewrite firstn_skipn.
  - intros H. unfold Spec.last_notes.
    now replace (length chunk_notes - 4)%nat with 0%nat by lia.
Qed.

Lemma rolling_summary_last_four_witness :
  Spec.last_notes 4 [lit "Chunk 1 (~2 words): a b"; lit "Chunk 2 (~1 words): c"]
  = [lit "Chunk 1 (~2 words): a b"; lit "Chunk 2 (~1 words): c"].
Proof.
  apply (proj2 (proj2 (proj2 (rolling_summary_last_four
           [lit "Chunk 1 (~2 words): a b"; lit "Chunk 2 (~1 words): c"])))).
  simpl. lia.
Defined.

End RollingSummary.

(** ** Heuristic engine *)

Section HeuristicEngine.
Variable U : unicode.
Variable F : float_ops.
Variable load : str -> result (list Z).

Local Open Scope Q_scope.

Lemma truediv_nonzero (a b : Q) : ~ b == 0 -> truediv a b = Ok (a / b).
Proof.
  intros Hb. unfold truediv.
  destruct (Qeq_bool b 0) eqn:E; [|reflexivity].
  apply Qeq_bool_iff in E. contradiction.
Qed.

Lemma inject_nat_pos (n : nat) : (0 < n)%nat -> 0 < inject_Z (Z.of_nat n).
Proof. intros H. unfold Qlt, inject_Z. simpl. lia. Qed.

Lemma truediv_count (a : Q) (n : nat) :
  (0 < n)%nat ->
  truediv a (inject_Z (Z.of_nat n)) = Ok (a / inject_Z (Z.of_nat n)).
Proof.
  intros H. apply truediv_nonzero. intros E.
  apply inject_nat_pos in H. rewrite E in H. now apply Qlt_irrefl in H.
Qed.

Lemma max_zero_bounds (x : Q) : x <= 1 -> 0 <= max 0 x /\ max 0 x <= 1.
Proof.
  intros Hx. unfold max. destruct (Qle_bool x 0) eqn:E.
  - split; [apply Qle_refl | discriminate].
  - split; [|exact Hx].
    destruct (Qlt_le_dec 0 x) as [H|H]; [now apply Qlt_le_weak|].
    apply Qle_bool_iff in H. congruence.
Qed.

(** C4. The repetition ratio is computed without error for every
    transcript, lies between 0 and 1, is 0 when the lowercased transcript
    has no word, and otherwise is the maximum of 0 and 1 minus the number
    of distinct lowercased words over the number of lowercased words; for
    the empty transcript it is 0. *)
Theorem word_repetition_ratio_bounds (text : str) :
  exists r,
    word_repetition_ratio U text = Ok r
    /\ 0 <= r /\ r <= 1
    /\ r = (let words := findall_words U (lower U text) in
            match words with
            | [] => 0
            | _ :: _ =>
                max 0 (1 - inject_Z (Z.of_nat (length (nodup str_eq_dec words)))
                           / inject_Z (Z.of_nat (length words)))
            end)
    /\ word_repetition_ratio U [] = Ok 0.
Proof.
  assert (Hempty : word_repetition_ratio U [] = Ok 0).
  { unfold word_repetition_ratio. now rewrite lower_empty. }
  unfold word_repetition_ratio. cbv zeta.
  destruct (findall_words U (lower U text)) as [|w ws] eqn:Hw.
  - exists 0. repeat split; try exact Hempty; discriminate.
  - rewrite truediv_count by (simpl; lia). cbn [bind].
    eexists. split; [reflexivity|].
    assert (Hb : 1 - inject_Z (Z.of_nat (length (nodup str_eq_dec (w :: ws))))
                     / inject_Z (Z.of_nat (length (w :: ws))) <= 1).
    { assert (0 <= inject_Z (Z.of_nat (length (nodup str_eq_dec (w :: ws))))
                   / inject_Z (Z.of_nat (length (w :: ws)))).
      { apply Qle_shift_div_l; [apply inject_nat_pos; simpl; lia|].
        rewrite Qmult_0_l. unfold Qle, inject_Z. simpl. lia. }
      apply Qplus_le_l with
        (z := inject_Z (Z.of_nat (length (nodup str_eq_dec (w :: ws))))
              / inject_Z (Z.of_nat (length (w :: ws)))).
      ring_simplify.
      apply Qplus_le_l with (z := - (1)). ring_simplify. exact H. }
    destruct (max_zero_bounds _ Hb) as [H0 H1].
    repeat split; try assumption.
Qed.

(** C5. With a duration of 0 or less, the speaking speed and the
    transcript density are 0 and nothing is raised; with a positive
    duration both are the word count divided by the duration. *)
Theorem speed_density_guarded (word_count : Z) (duration : Q) :
  (duration <= 0 ->
     speaking_speed word_count duration = Ok 0
     /\ transcript_density word_count duration = Ok 0)
  /\ (0 < duration ->
        speaking_speed word_count duration
          = Ok (inject_Z word_count / duration)
        /\ transcript_density word_count duration
          = Ok (inject_Z word_count / duration)).
Proof.
  unfold speaking_speed, transcript_density. split; intros H.
  - apply Qle_bool_iff in H. now rewrite H.
  - destruct (Qle_bool duration 0) eqn:E.
    + apply Qle_bool_iff in E. exfalso.
      apply (Qlt_irrefl 0). now apply Qlt_le_trans with duration.
    + rewrite truediv_nonzero; [now split|].
      intros E0. rewrite E0 in H. now apply Qlt_irrefl in H.
Qed.

Lemma speed_density_guarded_witness :
  (speaking_speed 360 0 = Ok 0 /\ transcript_density 360 0 = Ok 0)
  /\ (speaking_speed 360 120 = Ok (inject_Z 360 / 120)
      /\ transcript_density 360 120 = Ok (inject_Z 360 / 120)).
Proof.
  split.
  - apply (proj1 (speed_density_guarded 360 0)). discriminate.
  - apply (proj2 (speed_density_guarded 360 120)). reflexivity.
Defined.

(** The loop of [compute_visual_variance] collects the means of the
    readable frames and skips the others. *)
Lemma frame_averages_readable (frame_paths : list str) :
  forall averages,
    frame_averages load frame_paths averages
    = (averages ++ Spec.readable_means load frame_paths)%list.
Proof.
  induction frame_paths as [|path rest IH]; intros averages; simpl.
  - now rewrite app_nil_r.
  - unfold frame_average, Spec.mean_luminance.
    destruct (load path) as [[|p pixels]|e]; cbn [bind]; try apply IH.
    rewrite truediv_count by (simpl; lia). cbn [bind].
    rewrite IH, <- app_assoc. reflexivity.
Qed.

Lemma diffs_consecutive (xs : list Q) :
  map (fun i => abs (nth i xs 0 - nth (i - 1) xs 0))
      (seq 1 (length xs - 1))
  = Spec.consecutive_diffs xs.
Proof.
  induction xs as [|a [|b t] IH]; try reflexivity.
  change (Spec.consecutive_diffs (a :: b :: t))
    with (Qabs (b - a) :: Spec.consecutive_diffs (b :: t)).
  rewrite <- IH.
  replace (length (a :: b :: t) - 1)%nat with (S (length (b :: t) - 1))
    by (simpl; lia).
  cbn [seq map]. f_equal.
  rewrite <- seq_shift, map_map. apply map_ext_in.
  intros i Hi. apply in_seq in Hi.
  destruct i as [|i]; [lia|]. cbn [nth Nat.sub].
  now rewrite Nat.sub_0_r.
Qed.

Lemma consecutive_diffs_length (xs : list Q) :
  length (Spec.consecutive_diffs xs) = (length xs - 1)%nat.
Proof.
  induction xs as [|a [|b t] IH]; try reflexivity.
  change (Spec.consecutive_diffs (a :: b :: t))
    with (Qabs (b - a) :: Spec.consecutive_diffs (b :: t)).
  cbn [length] in *. lia.
Qed.

Lemma readable_means_length (frame_paths : list str) :
  (length (Spec.readable_means load frame_paths) <= length frame_paths)%nat.
Proof.
  induction frame_paths as [|p t IH]; simpl; [lia|].
  destruct (Spec.mean_luminance load p); simpl; lia.
Qed.

Lemma consecutive_diffs_constant (a : Q) (xs : list Q) :
  Forall (fun x => x == a) xs ->
  Forall (fun d => d == 0) (Spec.consecutive_diffs xs).
Proof.
  induction xs as [|x [|y t] IH]; intros H; [constructor | constructor |].
  change (Spec.consecutive_diffs (x :: y :: t))
    with (Qabs (y - x) :: Spec.consecutive_diffs (y :: t)).
  constructor.
  - inversion H as [|? ? Hx Ht]; subst. inversion Ht as [|? ? Hy _]; subst.
    rewrite Hx, Hy. unfold Qminus. rewrite Qplus_opp_r. reflexivity.
  - apply IH. now inversion H.
Qed.

Lemma sum_zero (ds : list Q) : Forall (fun d => d == 0) ds -> sum ds == 0.
Proof.
  unfold sum. assert (G : forall acc, acc == 0 ->
    Forall (fun d => d == 0) ds -> fold_left Qplus ds acc == 0).
  { induction ds as [|d t IH]; intros acc Ha H; simpl; [exact Ha|].
    inversion H; subst. apply IH; [|assumption].
    rewrite Ha. rewrite Qplus_0_l. assumption. }
  apply G. reflexivity.
Qed.

(** C6. The visual variance is computed without error for every list of
    frame paths, whatever opening a frame raises.  It is determined by the
    mean grey levels of the readable frames, taken in order: 0 when fewer
    than two frames are readable, and otherwise the mean of the absolute
    differences between consecutive means.  When these means are all
    equal, as for five frames of one average luminance, it is 0. *)
Theorem compute_visual_variance_mean_abs_diff (frame_paths : list str) :
  let means := Spec.readable_means load frame_paths in
  exists v,
    compute_visual_variance load frame_paths = Ok v
    /\ ((length means < 2)%nat -> v = 0)
    /\ ((2 <= length means)%nat ->
        v = Spec.mean (Spec.consecutive_diffs means))
    /\ (forall a, Forall (fun m => m == a) means -> v == 0).
Proof.
  cbv zeta. unfold compute_visual_variance.
  pose proof (readable_means_length frame_paths) as Hle.
  destruct (length frame_paths <? 2)%nat eqn:E1.
  - apply Nat.ltb_lt in E1. exists 0.
    repeat split; try reflexivity. intros; lia.
  - rewrite frame_averages_readable. cbn [app].
    set (means := Spec.readable_means load frame_paths) in *.
    destruct (length means <? 2)%nat eqn:E2.
    + apply Nat.ltb_lt in E2. exists 0.
      repeat split; try reflexivity. intros; lia.
    + apply Nat.ltb_ge in E2. rewrite diffs_consecutive.
      rewrite truediv_count
        by (rewrite consecutive_diffs_length; lia).
      eexists. split; [reflexivity|]. split; [intros; lia|].
      split; [reflexivity|].
      intros a Ha. apply consecutive_diffs_constant, sum_zero in Ha.
      rewrite Ha. unfold Qdiv. apply Qmult_0_l.
Qed.

(** C7. The speaking speed and the transcript density are one function
    of the word count and the duration, and in every result of
    [aggregate_heuristics] the two fields hold the same value. *)
Theorem speed_equals_density :
  (forall word_count duration,
      speaking_speed word_count duration
      = transcript_density word_count duration)
  /\ (forall transcript duration frame_paths heuristics,
        aggregate_heuristics U F load transcript duration frame_paths
        = Ok heuristics ->
        exists x,
          getitem heuristics (lit "speaking_speed_wps") = Some (Float x)
          /\ getitem heuristics (lit "transcript_density_wps")
             = Some (Float x)).
Proof.
  split; [reflexivity|].
  intros transcript duration frame_paths heuristics.
  unfold aggregate_heuristics. cbv zeta.
  destruct (word_repetition_ratio U transcript) as [rep|]; [|discriminate].
  cbn [bind].
  change (transcript_density
            (Z.of_nat (length (findall_words U transcript))) duration)
    with (speaking_speed
            (Z.of_nat (length (findall_words U transcript))) duration).
  destruct (speaking_speed _ duration) as [speed|]; [|discriminate].
  cbn [bind].
  destruct (compute_visual_variance load frame_paths) as [variance|];
    [|discriminate].
  cbn [bind]. intros H. inv H.
  exists (round F speed 2). split; reflexivity.
Qed.

End HeuristicEngine.

Section HeuristicExamples.

Local Open Scope Q_scope.


Lemma compute_visual_variance_mean_abs_diff_witness :
  exists v,
    compute_visual_variance five_frames five_paths = Ok v
    /\ v = Spec.mean (Spec.consecutive_diffs
                        (Spec.readable_means five_frames five_paths))
    /\ v == 0.
Proof.
  destruct (compute_visual_variance_mean_abs_diff five_frames five_paths)
    as [v [Hv [_ [Hmean Hzero]]]].
  exists v. split; [exact Hv|]. split.
  - apply Hmean. vm_compute. lia.
  - apply (Hzero 20). vm_compute. repeat constructor.
Defined.

Lemma speed_equals_density_witness :
  exists x,
    getitem
      [ (lit "word_count", Int 3); (lit "duration_seconds", Float 120);
        (lit "repetition_ratio", Float (round_decimal 0 4));
        (lit "speaking_speed_wps", Float (round_decimal (inject_Z 3 / 120) 2));
        (lit "transcript_density_wps",
          Float (round_decimal (inject_Z 3 / 120) 2));
        (lit "visual_variance", Float (round_decimal 0 2)) ]
      (lit "speaking_speed_wps") = Some (Float x)
    /\ getitem
      [ (lit "word_count", Int 3); (lit "duration_seconds", Float 120);
        (lit "repetition_ratio", Float (round_decimal 0 4));
        (lit "speaking_speed_wps", Float (round_decimal (inject_Z 3 / 120) 2));
        (lit "transcript_density_wps",
          Float (round_decimal (inject_Z 3 / 120) 2));
        (lit "visual_variance", Float (round_decimal 0 2)) ]
      (lit "transcript_density_wps") = Some (Float x).
Proof.
  apply (proj2 (speed_equals_density ascii_tables decimal_floats
                  (fun _ => Raise OSError))
           (lit "one two three") 120 []).
  vm_compute. reflexivity.
Defined.

End HeuristicExamples.

(** ** Prompt assembler *)

Section PromptAssembler.
Variable F : float_ops.



End PromptAssembler.

Section PromptExamples.



End PromptExamples.

(** ** The scenario of 360 words in 120 seconds *)

Section Scenario.

Local Open Scope Q_scope.

Example scenario_two_chunks :
  let transcript := concat (repeat (lit "word ") 360) in
  exists c1 c2 speed,
    chunk_transcript transcript default_chunk_words = Ok [c1; c2]
    /\ rolling_summary (build_chunk_notes [c1; c2])
       = join [10%Z] (build_chunk_notes [c1; c2])
    /\ speaking_speed 360 120 = Ok speed /\ speed == 3
    /\ getitem
         (match aggregate_heuristics ascii_tables decimal_floats
                  (fun _ => Raise OSError) transcript 120 [] with
          | Ok h => h
          | Raise _ => []
          end) (lit "speaking_speed_wps") = Some (Float 3.00).
Proof.
  cbv zeta. do 3 eexists.
  split; [vm_compute; reflexivity|].
  split; [vm_compute; reflexivity|].
  split; [vm_compute; reflexivity|].
  split; [reflexivity|].
  vm_compute. reflexivity.
Qed.

End Scenario.

(* ================================================================== *)
(** * Part III: further properties of the code *)
(* ================================================================== *)

(** ** The match of the response parser *)

Section ParserMatch.

Lemma dotstar_none_no_rbrace (t : str) :
  Re.match_dotstar_rbrace t = None -> ~ In Re.rbrace t.
Proof.
  induction t as [|c t IH]; simpl; [tauto|].
  destruct (Re.match_dotstar_rbrace t); [discriminate|].
  destruct (c =? Re.rbrace) eqn:E; [discriminate|].
  intros _ [H|H]; [|now apply IH].
  apply Z.eqb_neq in E. congruence.
Qed.

Lemma dotstar_some_shape (t m : str) :
  Re.match_dotstar_rbrace t = Some m ->
  exists body post,
    t = m ++ post /\ m = body ++ [Re.rbrace] /\ ~ In Re.rbrace post.
Proof.
  revert m. induction t as [|c t IH]; simpl; intros m; [discriminate|].
  destruct (Re.match_dotstar_rbrace t) as [m'|] eqn:E.
  - intros H. inv H. destruct (IH m' eq_refl) as [body [post [Ht [Hm Hp]]]].
    exists (c :: body), post. subst m'. rewrite Ht at 1. now repeat split.
  - destruct (c =? Re.rbrace) eqn:Ec; [|discriminate].
    intros H. inv H. apply Z.eqb_eq in Ec. subst c.
    exists [], t. repeat split. now apply dotstar_none_no_rbrace.
Qed.

Lemma dotstar_app (body post : str) :
  ~ In Re.rbrace post ->
  Re.match_dotstar_rbrace (body ++ Re.rbrace :: post)
  = Some (body ++ [Re.rbrace]).
Proof.
  intros Hp. induction body as [|b body IH]; simpl.
  - destruct (Re.match_dotstar_rbrace post) as [m|] eqn:E; [|reflexivity].
    apply dotstar_some_shape in E. destruct E as [bd [post' [Ht [Hm _]]]].
    exfalso. apply Hp. rewrite Ht, Hm, <- app_assoc.
    apply in_or_app. right. now left.
  - now rewrite IH.
Qed.

(** X1. A match of the pattern is a piece of the reply that opens with a
    brace and closes with a brace; no opening brace comes before it and no
    closing brace after it. *)
Theorem search_match_shape (content m : str) :
  Re.search content = Some m ->
  exists pre body post,
    content = pre ++ m ++ post
    /\ m = Re.lbrace :: body ++ [Re.rbrace]
    /\ ~ In Re.lbrace pre
    /\ ~ In Re.rbrace post.
Proof.
  revert m. induction content as [|c t IH]; intros m; [discriminate|].
  cbn [Re.search Re.match_here].
  destruct (c =? Re.lbrace) eqn:Ec.
  - apply Z.eqb_eq in Ec. subst c.
    destruct (Re.match_dotstar_rbrace t) as [m'|] eqn:E; cbn [option_map].
    + intros H. inv H.
      destruct (dotstar_some_shape _ _ E) as [body [post [Ht [Hm Hp]]]].
      exists [], body, post. subst m'. rewrite Ht at 1. now repeat split.
    + intros H. exfalso.
      destruct (IH m H) as [pre [body [post [Ht [Hm _]]]]].
      apply (dotstar_none_no_rbrace _ E).
      rewrite Ht, Hm. apply in_or_app. right. apply in_or_app. left.
      right. apply in_or_app. right. now left.
  - intros H. destruct (IH m H) as [pre [body [post [Ht [Hm [Hl Hr]]]]]].
    exists (c :: pre), body, post. rewrite Ht at 1.
    repeat split; try assumption.
    intros [Hc|Hin]; [|now apply Hl].
    apply Z.eqb_neq in Ec. congruence.
Qed.

Lemma search_match_shape_witness :
  exists pre body post,
    lit "ok {a} {b} bye" = pre ++ lit "{a} {b}" ++ post
    /\ lit "{a} {b}" = Re.lbrace :: body ++ [Re.rbrace]
    /\ ~ In Re.lbrace pre
    /\ ~ In Re.rbrace post.
Proof.
  apply (search_match_shape (lit "ok {a} {b} bye") (lit "{a} {b}")).
  vm_compute. reflexivity.
Defined.

Lemma search_surrounded (pre body post : str) :
  ~ In Re.lbrace pre -> ~ In Re.rbrace post ->
  Re.search (pre ++ (Re.lbrace :: body ++ [Re.rbrace]) ++ post)
  = Some (Re.lbrace :: body ++ [Re.rbrace]).
Proof.
  intros Hl Hr. induction pre as [|c pre IH].
  - cbn [app Re.search Re.match_here]. rewrite <- app_assoc. cbn [app].
    rewrite Z.eqb_refl, dotstar_app by exact Hr. reflexivity.
  - cbn [app Re.search Re.match_here].
    destruct (c =? Re.lbrace) eqn:Ec.
    + apply Z.eqb_eq in Ec. exfalso. apply Hl. now left.
    + apply IH. intros Hin. apply Hl. now right.
Qed.

(** X2. Commentary around the object is ignored as long as it brings no
    brace of its own: when no opening brace comes before the object text
    and no closing brace after it, the parser gives what [json.loads] gives
    on the object text alone. *)
Theorem extract_json_ignores_commentary
    (depth : nat) (pre body post : str) :
  ~ In Re.lbrace pre -> ~ In Re.rbrace post ->
  extract_json depth (pre ++ (Re.lbrace :: body ++ [Re.rbrace]) ++ post)
  = loads depth (Re.lbrace :: body ++ [Re.rbrace])
  /\ extract_json depth (pre ++ (Re.lbrace :: body ++ [Re.rbrace]) ++ post)
     = extract_json depth (Re.lbrace :: body ++ [Re.rbrace]).
Proof.
  intros Hl Hr. unfold extract_json.
  rewrite (search_surrounded pre body post Hl Hr).
  pose proof (search_surrounded [] body [] ltac:(tauto) ltac:(tauto)) as H.
  cbn [app] in H. rewrite app_nil_r in H. now rewrite H.
Qed.

Lemma extract_json_ignores_commentary_witness :
  extract_json 4
    (lit "Here you go: " ++ (Re.lbrace :: litq "'Tone': 'calm'" ++ [Re.rbrace])
       ++ lit " Hope this helps!")
  = loads 4 (Re.lbrace :: litq "'Tone': 'calm'" ++ [Re.rbrace])
  /\ extract_json 4
    (lit "Here you go: " ++ (Re.lbrace :: litq "'Tone': 'calm'" ++ [Re.rbrace])
       ++ lit " Hope this helps!")
     = extract_json 4 (Re.lbrace :: litq "'Tone': 'calm'" ++ [Re.rbrace]).
Proof.
  apply (extract_json_ignores_commentary 4 (lit "Here you go: ")
           (litq "'Tone': 'calm'") (lit " Hope this helps!"));
    intros H; simpl in H; repeat destruct H as [H|H];
    first [discriminate | contradiction].
Defined.

End ParserMatch.

(** ** The parsed record *)

Section ParsedRecord.

Lemma str_eqb_eq (a b : str) : str_eqb a b = true <-> a = b.
Proof.
  revert b. induction a as [|x a IH]; intros [|y b]; simpl;
    try (split; [discriminate | congruence]); [tauto|].
  rewrite andb_true_iff, Z.eqb_eq, IH. split.
  - intros [-> ->]. reflexivity.
  - intros H. inv H. now split.
Qed.

Lemma dict_setitem_keys (d : list (str * value)) (k : str) (v : value) :
  forall x, In x (map fst (dict_setitem d k v)) ->
            In x (map fst d) \/ x = k.
Proof.
  induction d as [|[k' v'] t IH]; simpl; intros x.
  - intros [H|[]]. now right.
  - destruct (str_eqb k k'); simpl.
    + tauto.
    + intros [H|H]; [tauto|]. destruct (IH x H); tauto.
Qed.

Lemma dict_setitem_NoDup (d : list (str * value)) (k : str) (v : value) :
  NoDup (map fst d) -> NoDup (map fst (dict_setitem d k v)).
Proof.
  induction d as [|[k' v'] t IH]; simpl; intros H.
  - constructor; [tauto | constructor].
  - inversion H as [|? ? Hnot Ht]; subst.
    destruct (str_eqb k k') eqn:E; simpl.
    + now constructor.
    + constructor; [|now apply IH].
      intros Hin. apply dict_setitem_keys in Hin. destruct Hin as [Hin| ->].
      * contradiction.
      * assert (str_eqb k k = true) by now apply str_eqb_eq. congruence.
  Qed.

Lemma dict_NoDup (pairs : list (str * value)) :
  NoDup (map fst (dict pairs)).
Proof.
  unfold dict.
  assert (G : forall d, NoDup (map fst d) ->
            NoDup (map fst (fold_left
              (fun d kv => dict_setitem d (fst kv) (snd kv)) pairs d))).
  { induction pairs as [|kv pairs IH]; intros d Hd; simpl; [exact Hd|].
    apply IH. now apply dict_setitem_NoDup. }
  apply G. constructor.
Qed.

Lemma object_items_dict (scan : str -> result (value * str)) (fuel : nat) :
  forall s pairs v r,
    object_items scan fuel s pairs = Some (Ok (v, r)) ->
    exists ps, v = VDict (dict ps).
Proof.
  induction fuel as [|fuel IH]; intros s pairs v r; [discriminate|].
  cbn [object_items].
  destruct (scanstring s []) as [[key r0]|e]; [|discriminate].
  destruct (skip_ws r0) as [|c r1]; [discriminate|].
  destruct (c =? 58); [|discriminate].
  destruct (catch_stop (scan (skip_ws r1))) as [[v0 r2]|e]; [|discriminate].
  destruct (skip_ws r2) as [|c2 r3]; [discriminate|].
  destruct (c2 =? 125); [intros H; inv H; eauto|].
  destruct (c2 =? 44); [|discriminate].
  destruct (skip_ws r3) as [|q r4]; [discriminate|].
  destruct (q =? 34); [|discriminate].
  apply IH.
Qed.

Lemma parse_object_dict (scan : str -> result (value * str)) (s r : str)
    (v : value) :
  parse_object scan s = Ok (v, r) -> exists ps, v = VDict (dict ps).
Proof.
  unfold parse_object.
  destruct (skip_ws s) as [|c r0]; [discriminate|].
  destruct (c =? 125); [intros H; inv H; eauto|].
  destruct (c =? 34); [|discriminate].
  destruct (object_items scan (S (length r0)) r0 []) as [[[v0 r1]|e]|] eqn:E;
    simpl; try discriminate.
  intros H. inv H. eapply object_items_dict. exact E.
Qed.

Lemma loads_object_dict (depth : nat) (t : str) (v : value) :
  loads depth (Re.lbrace :: t) = Ok v -> exists ps, v = VDict (dict ps).
Proof.
  unfold loads, Re.lbrace.
  change (starts_with [65279] (123 :: t)) with false.
  change (skip_ws (123 :: t)) with (123 :: t).
  destruct depth as [|d]; cbn [scan_once];
    change (123 =? 34) with false; change (123 =? 123) with true;
    cbv iota; [discriminate|].
  destruct (parse_object (scan_once d) t) as [[obj r]|e] eqn:E;
    [|destruct e; discriminate].
  cbn [catch_stop bind].
  destruct (skip_ws r); [|discriminate].
  intros H. inv H. eapply parse_object_dict. exact E.
Qed.

Lemma search_head (content m : str) :
  Re.search content = Some m -> exists t, m = Re.lbrace :: t.
Proof.
  revert m. induction content as [|c t IH]; intros m; [discriminate|].
  cbn [Re.search Re.match_here].
  destruct (c =? Re.lbrace) eqn:Ec; [|apply IH].
  destruct (Re.match_dotstar_rbrace t) as [m'|]; cbn [option_map];
    [|apply IH].
  intros H. inv H. apply Z.eqb_eq in Ec. subst c. eauto.
Qed.

(** X3. Whatever the parser returns is a JSON object, never a list, a
    string or a number, and no key occurs twice in it. *)
Theorem extract_json_returns_dict (depth : nat) (content : str) (v : value) :
  extract_json depth content = Ok v ->
  exists items, v = VDict items /\ NoDup (map fst items).
Proof.
  unfold extract_json.
  destruct (Re.search content) as [m|] eqn:E; [|discriminate].
  apply search_head in E. destruct E as [t ->].
  intros H. apply loads_object_dict in H. destruct H as [ps ->].
  exists (dict ps). split; [reflexivity | apply dict_NoDup].
Qed.

Lemma extract_json_returns_dict_witness :
  exists items,
    VDict [(lit "A", VInt 2)] = VDict items /\ NoDup (map fst items).
Proof.
  apply (extract_json_returns_dict 4 (litq "x {'A': 1, 'A': 2} y")).
  vm_compute. reflexivity.
Defined.

End ParsedRecord.

(** ** The windows of the chunker *)

Section ChunkWindows.

Lemma nth_error_seq_some (m : nat) :
  forall a i x, nth_error (seq a m) i = Some x -> x = (a + i)%nat /\ (i < m)%nat.
Proof.
  induction m as [|m IH]; intros a [|i] x; simpl; try discriminate.
  - intros H. inv H. lia.
  - intros H. apply IH in H. lia.
Qed.

Lemma windows_start_inside (n : nat) (cw : Z) (i : nat) :
  0 < cw ->
  (i < Z.to_nat (range_length 0 (Z.of_nat n) cw))%nat ->
  (i * Z.to_nat cw < n)%nat.
Proof.
  intros Hc. unfold range_length.
  replace (0 <? cw) with true by (symmetry; apply Z.ltb_lt; lia).
  destruct (0 <? Z.of_nat n) eqn:E; [|simpl; lia].
  apply Z.ltb_lt in E. intros Hi.
  pose proof (Z.div_mod (Z.of_nat n - 1 - 0) cw ltac:(lia)) as Hd.
  pose proof (Z.mod_pos_bound (Z.of_nat n - 1 - 0) cw Hc) as Hm.
  pose proof (Z.div_pos (Z.of_nat n - 1 - 0) cw ltac:(lia) Hc) as Hq.
  assert (Hz : Z.of_nat i * cw < Z.of_nat n) by nia.
  apply Nat2Z.inj_lt. rewrite Nat2Z.inj_mul, Z2Nat.id by lia. exact Hz.
Qed.

Lemma nth_error_windows {A} (f : nat -> A) (m i : nat) (x : A) :
  nth_error (map f (seq 0 m)) i = Some x -> x = f i /\ (i < m)%nat.
Proof.
  rewrite nth_error_map.
  destruct (nth_error (seq 0 m) i) as [k|] eqn:E; [|discriminate].
  apply nth_error_seq_some in E. destruct E as [-> Hi].
  intros H. inv H. now split.
Qed.

(** X4. With a positive window, every chunk holds at least one word and at
    most [chunk_words] words, and every chunk but the last holds exactly
    [chunk_words] words. *)
Theorem chunk_transcript_window_sizes
    (transcript : str) (chunk_words : Z) (chunks : list str) :
  0 < chunk_words ->
  chunk_transcript transcript chunk_words = Ok chunks ->
  forall i chunk,
    nth_error chunks i = Some chunk ->
    (1 <= length (split chunk))%nat
    /\ Z.of_nat (length (split chunk)) <= chunk_words
    /\ ((S i < length chunks)%nat ->
        Z.of_nat (length (split chunk)) = chunk_words).
Proof.
  intros Hc H i chunk Hi.
  rewrite chunk_transcript_windows in H by exact Hc. inv H.
  pose proof Hi as Hi'. apply nth_error_windows in Hi'.
  destruct Hi' as [-> Hlt].
  rewrite split_join by apply Forall_window, split_words_ok.
  rewrite length_firstn, length_skipn, length_map, length_seq.
  pose proof (windows_start_inside _ _ i Hc Hlt) as Hin.
  repeat split; try lia.
  intros Hnext.
  pose proof (windows_start_inside _ _ (S i) Hc Hnext) as Hin'.
  simpl in Hin'. lia.
Qed.

Lemma chunk_transcript_window_sizes_witness :
  (1 <= length (split (lit "one two")))%nat
  /\ Z.of_nat (length (split (lit "one two"))) <= 2
  /\ ((1 < length [lit "one two"; lit "three"])%nat ->
      Z.of_nat (length (split (lit "one two"))) = 2).
Proof.
  apply (chunk_transcript_window_sizes (lit " one two  three") 2
           [lit "one two"; lit "three"] ltac:(lia) eq_refl 0%nat
           (lit "one two") eq_refl).
Defined.

Lemma join_app (sep : str) (a b : list str) :
  a <> [] -> b <> [] ->
  join sep (a ++ b) = join sep a ++ sep ++ join sep b.
Proof.
  intros Ha Hb. induction a as [|x a IH]; [contradiction|].
  destruct a as [|y a].
  - cbn [app]. destruct b; [contradiction | reflexivity].
  - change (join sep ((x :: y :: a) ++ b))
      with (x ++ sep ++ join sep ((y :: a) ++ b)).
    rewrite IH by discriminate.
    change (join sep (x :: y :: a)) with (x ++ sep ++ join sep (y :: a)).
    now rewrite <- !app_assoc.
Qed.

Lemma join_concat (sep : str) (ws : list (list str)) :
  Forall (fun w => w <> []) ws ->
  join sep (map (join sep) ws) = join sep (concat ws).
Proof.
  induction ws as [|w ws IH]; intros H; [reflexivity|].
  inversion H as [|? ? Hw Hws]; subst.
  destruct ws as [|w2 ws].
  - cbn [map concat join]. now rewrite app_nil_r.
  - change (join sep (map (join sep) (w :: w2 :: ws)))
      with (join sep w ++ sep ++ join sep (map (join sep) (w2 :: ws))).
    rewrite (IH Hws). change (concat (w :: w2 :: ws))
      with (w ++ concat (w2 :: ws)).
    rewrite join_app; [reflexivity | exact Hw |].
    inversion Hws; subst. cbn [concat]. destruct w2; [contradiction|].
    discriminate.
Qed.

(** X5. With a positive window, the chunks joined by single spaces are
    the transcript with every run of white space turned into one space,
    and chunking that text again gives the same chunks. *)
Theorem chunk_transcript_normalises
    (transcript : str) (chunk_words : Z) (chunks : list str) :
  0 < chunk_words ->
  chunk_transcript transcript chunk_words = Ok chunks ->
  join (lit " ") chunks = join (lit " ") (split transcript)
  /\ chunk_transcript (join (lit " ") chunks) chunk_words = Ok chunks.
Proof.
  intros Hc H.
  assert (Hjoin : join (lit " ") chunks = join (lit " ") (split transcript)).
  { pose proof H as H'.
    rewrite chunk_transcript_windows in H' by exact Hc. inv H'.
    rewrite <- (map_map
      (fun k => firstn (Z.to_nat chunk_words)
                  (skipn (k * Z.to_nat chunk_words) (split transcript)))
      (join (lit " "))).
    rewrite join_concat.
    - f_equal. apply concat_windows.
      destruct (split transcript) as [|w ws] eqn:Hw; [simpl; lia|].
      rewrite <- Hw.
      pose proof (range_length_covers (Z.of_nat (length (split transcript)))
                    chunk_words ltac:(rewrite Hw; simpl; lia) Hc) as Hcov.
      assert (0 <= range_length 0 (Z.of_nat (length (split transcript)))
                     chunk_words) by nia.
      nia.
    - apply Forall_forall. intros w Hin. apply in_map_iff in Hin.
      destruct Hin as [k [<- Hk]]. apply in_seq in Hk.
      pose proof (windows_start_inside (length (split transcript))
                    chunk_words k Hc ltac:(lia)) as Hin.
      intros E. apply (f_equal (@length str)) in E.
      rewrite length_firstn, length_skipn in E. simpl in E. lia. }
  split; [exact Hjoin|].
  rewrite <- H. unfold chunk_transcript.
  rewrite Hjoin, split_join by apply split_words_ok. reflexivity.
Qed.

Lemma chunk_transcript_normalises_witness :
  join (lit " ") [lit "one two"; lit "three"]
  = join (lit " ") (split (lit " one two  three"))
  /\ chunk_transcript (join (lit " ") [lit "one two"; lit "three"]) 2
     = Ok [lit "one two"; lit "three"].
Proof.
  apply (chunk_transcript_normalises (lit " one two  three") 2
           [lit "one two"; lit "three"] ltac:(lia) eq_refl).
Defined.

End ChunkWindows.

(** ** Chunk notes *)

Section ChunkNotes.

Lemma uint_digits (d : Decimal.uint) (c : char) :
  In c (lit (NilEmpty.string_of_uint d)) -> 48 <= c <= 57.
Proof.
  induction d; simpl; intros H; try contradiction;
    destruct H as [H|H]; try (now apply IHd); subst c; vm_compute;
    split; discriminate.
Qed.

(** The decimal text of an integer: digits after an optional minus sign. *)
Lemma str_of_int_chars (n : Z) (c : char) :
  In c (str_of_int n) -> c = 45 \/ 48 <= c <= 57.
Proof.
  unfold str_of_int, NilZero.string_of_int, NilZero.string_of_uint.
  assert (G : forall u, In c (lit match u with
                                  | Decimal.Nil => "0"%string
                                  | _ => NilEmpty.string_of_uint u
                                  end) -> 48 <= c <= 57).
  { intros u. destruct u; try apply uint_digits.
    simpl. intros [H|[]]. subst c. vm_compute. split; discriminate. }
  destruct (Z.to_int n) as [u|u].
  - intros H. right. now apply (G u).
  - change (lit (String "-" ?s)) with (45 :: lit s).
    intros [H|H]; [now left | right; now apply (G u)].
Qed.

Lemma slice_to_firstn {A} (l : list A) (k : nat) :
  slice_to l (Z.of_nat k) = firstn k l.
Proof.
  unfold slice_to, slice_index.
  replace (Z.of_nat k <? 0) with false by (symmetry; apply Z.ltb_ge; lia).
  destruct (Nat.le_gt_cases k (length l)) as [H|H].
  - f_equal. lia.
  - rewrite (firstn_all2 l (n := k)) by lia.
    apply firstn_all2. lia.
Qed.

Lemma build_chunk_notes_from_nth (chunks : list str) :
  forall idx i chunk,
    nth_error chunks i = Some chunk ->
    nth_error (build_chunk_notes_from idx chunks) i
    = Some (lit "Chunk " ++ str_of_int (idx + Z.of_nat i) ++ lit " (~"
              ++ str_of_int (Z.of_nat (length (split chunk)))
              ++ lit " words): " ++ replace_char 10 32 (firstn 200 chunk)).
Proof.
  induction chunks as [|c rest IH]; intros idx [|i] chunk;
    cbn [nth_error build_chunk_notes_from]; try discriminate.
  - intros H. inv H. cbv zeta.
    change 200 with (Z.of_nat 200) at 1.
    rewrite (slice_to_firstn chunk 200).
    now replace (idx + Z.of_nat 0) with idx by lia.
  - intros H. rewrite (IH (idx + 1) i chunk H).
    now replace (idx + 1 + Z.of_nat i) with (idx + Z.of_nat (S i)) by lia.
Qed.

Lemma build_chunk_notes_from_one_line (chunks : list str) :
  forall idx, Forall (fun note => ~ In 10 note)
                (build_chunk_notes_from idx chunks).
Proof.
  induction chunks as [|c rest IH]; intros idx;
    cbn [build_chunk_notes_from]; constructor; [|apply IH].
  cbv zeta. rewrite !in_app_iff.
  intros [H|[H|[H|[H|[H|H]]]]].
  - simpl in H. repeat destruct H as [H|H];
      first [discriminate | contradiction].
  - apply str_of_int_chars in H. lia.
  - simpl in H. repeat destruct H as [H|H];
      first [discriminate | contradiction].
  - apply str_of_int_chars in H. lia.
  - simpl in H. repeat destruct H as [H|H];
      first [discriminate | contradiction].
  - unfold replace_char in H. apply in_map_iff in H.
    destruct H as [x [Hx _]]. destruct (x =? 10) eqn:E; [discriminate|].
    apply Z.eqb_neq in E. congruence.
Qed.

(** X6. There is one note per chunk, in the order of the chunks.  The note
    of the chunk at position [i] (from 0) is labelled with [i + 1] and with
    the number of words of the chunk, and ends with a preview: the first 200
    characters of the chunk, with newlines turned into spaces.  No note
    holds a newline, so each is a single line of the prompt. *)
Theorem build_chunk_notes_lines (chunks : list str) :
  length (build_chunk_notes chunks) = length chunks
  /\ Forall (fun note => ~ In 10 note) (build_chunk_notes chunks)
  /\ (forall i chunk,
        nth_error chunks i = Some chunk ->
        exists preview,
          nth_error (build_chunk_notes chunks) i
          = Some (lit "Chunk " ++ str_of_int (Z.of_nat i + 1) ++ lit " (~"
                    ++ str_of_int (Z.of_nat (length (split chunk)))
                    ++ lit " words): " ++ preview)
          /\ preview = replace_char 10 32 (firstn 200 chunk)
          /\ (length preview <= 200)%nat).
Proof.
  unfold build_chunk_notes. split; [|split].
  - generalize 1. induction chunks as [|c rest IH]; intros idx; simpl;
      [reflexivity | now rewrite IH].
  - apply build_chunk_notes_from_one_line.
  - intros i chunk H. eexists. split; [|split; [reflexivity|]].
    + rewrite (build_chunk_notes_from_nth chunks 1 i chunk H).
      now rewrite (Z.add_comm 1).
    + unfold replace_char. rewrite length_map, length_firstn. lia.
Qed.

Lemma build_chunk_notes_lines_witness :
  exists preview,
    nth_error (build_chunk_notes [lit "one two"; [108; 10; 109]]) 1
    = Some (lit "Chunk " ++ str_of_int (Z.of_nat 1 + 1) ++ lit " (~"
              ++ str_of_int (Z.of_nat (length (split [108; 10; 109])))
              ++ lit " words): " ++ preview)
    /\ preview = replace_char 10 32 (firstn 200 [108; 10; 109])
    /\ (length preview <= 200)%nat.
Proof.
  apply (proj2 (proj2 (build_chunk_notes_lines
                         [lit "one two"; [108; 10; 109]])) 1%nat).
  reflexivity.
Defined.

End ChunkNotes.

(** ** Repetition ratio *)

Section RepetitionRatio.
Variable U : unicode.

Local Open Scope Q_scope.

Lemma nodup_length_le (l : list str) :
  (length (nodup str_eq_dec l) <= length l)%nat.
Proof.
  induction l as [|a l IH]; simpl; [lia|].
  destruct (in_dec str_eq_dec a l); simpl; lia.
Qed.

Lemma nodup_length_eq (l : list str) :
  length (nodup str_eq_dec l) = length l <-> NoDup l.
Proof.
  split.
  - induction l as [|a l IH]; simpl; [constructor|].
    pose proof (nodup_length_le l) as Hle.
    destruct (in_dec str_eq_dec a l); simpl; [lia|].
    intros H. constructor; [assumption | apply IH; lia].
  - intros H. now rewrite nodup_fixed_point.
Qed.

Lemma nodup_nonempty (a : str) (l : list str) :
  (1 <= length (nodup str_eq_dec (a :: l)))%nat.
Proof.
  assert (H : In a (nodup str_eq_dec (a :: l))) by (apply nodup_In; now left).
  destruct (nodup str_eq_dec (a :: l)); [contradiction | simpl; lia].
Qed.

Lemma count_ratio (u n : nat) :
  (1 <= u)%nat -> (u <= n)%nat ->
  let x := inject_Z (Z.of_nat u) / inject_Z (Z.of_nat n) in
  0 < x /\ x <= 1 /\ (x == 1 <-> u = n).
Proof.
  intros Hu Hn x.
  assert (Hpos : 0 < inject_Z (Z.of_nat n)).
  { change 0 with (inject_Z 0). rewrite <- Zlt_Qlt. lia. }
  assert (Hx : inject_Z (Z.of_nat n) * x == inject_Z (Z.of_nat u)).
  { unfold x. apply Qmult_div_r. intros E. rewrite E in Hpos.
    now apply Qlt_irrefl in Hpos. }
  split; [|split].
  - apply Qlt_shift_div_l; [exact Hpos|]. rewrite Qmult_0_l.
    change 0 with (inject_Z 0). rewrite <- Zlt_Qlt. lia.
  - apply Qle_shift_div_r; [exact Hpos|]. rewrite Qmult_1_l.
    rewrite <- Zle_Qle. lia.
  - split.
    + intros E. rewrite E, Qmult_1_r in Hx.
      apply (proj1 (inject_Z_injective _ _)) in Hx. lia.
    + intros ->. unfold x. apply Qmult_inv_r. intros E. rewrite E in Hpos.
      now apply Qlt_irrefl in Hpos.
Qed.

(** X7. The repetition ratio is always below 1, and it is 0 exactly when
    no lowercased word of the transcript occurs twice. *)
Theorem word_repetition_ratio_zero_iff_distinct (text : str) :
  exists r,
    word_repetition_ratio U text = Ok r
    /\ r < 1
    /\ (r == 0 <-> NoDup (findall_words U (lower U text))).
Proof.
  unfold word_repetition_ratio. cbv zeta.
  destruct (findall_words U (lower U text)) as [|w ws] eqn:Hw.
  - exists 0. split; [reflexivity|]. split; [reflexivity|].
    split; [constructor | reflexivity].
  - rewrite truediv_count by (simpl; lia). cbn [bind].
    eexists. split; [reflexivity|].
    pose proof (count_ratio _ _ (nodup_nonempty w ws)
                  (nodup_length_le (w :: ws))) as Hc.
    cbv zeta in Hc. destruct Hc as [H0 [H1 Heq]].
    rewrite nodup_length_eq in Heq.
    set (x := inject_Z (Z.of_nat (length (nodup str_eq_dec (w :: ws))))
              / inject_Z (Z.of_nat (length (w :: ws)))) in *.
    unfold max. destruct (Qle_bool (1 - x) 0) eqn:E.
    + apply Qle_bool_iff in E. split; [reflexivity|].
      split; [intros _; apply Heq; lra | reflexivity].
    + assert (Hlt : ~ 1 - x <= 0).
      { intros H. apply Qle_bool_iff in H. congruence. }
      split; [lra|]. split.
      * intros H. exfalso. apply Hlt. lra.
      * intros H. apply Heq in H. lra.
Qed.

End RepetitionRatio.

(** ** Visual variance *)

Section VisualVariance.
Variable load : str -> result (list Z).

Local Open Scope Q_scope.

Lemma sum_from (xs : list Q) :
  forall acc, fold_left Qplus xs acc == acc + sum xs.
Proof.
  unfold sum. induction xs as [|x xs IH]; intros acc; simpl.
  - lra.
  - rewrite IH, (IH (0 + x)). lra.
Qed.

Lemma sum_cons (x : Q) (xs : list Q) : sum (x :: xs) == x + sum xs.
Proof. unfold sum at 1. simpl. rewrite sum_from. lra. Qed.

Lemma inject_length_cons {A} (x : A) (xs : list A) :
  inject_Z (Z.of_nat (length (x :: xs)))
  == inject_Z (Z.of_nat (length xs)) + 1.
Proof.
  cbn [length]. rewrite Nat2Z.inj_succ. unfold Z.succ.
  now rewrite inject_Z_plus.
Qed.

Lemma sum_bounds (lo hi : Q) (xs : list Q) :
  Forall (fun x => lo <= x /\ x <= hi) xs ->
  lo * inject_Z (Z.of_nat (length xs)) <= sum xs
  /\ sum xs <= hi * inject_Z (Z.of_nat (length xs)).
Proof.
  induction 1 as [|x xs [Hlo Hhi] _ [IHlo IHhi]].
  - unfold sum. cbn [fold_left length Z.of_nat].
    change (inject_Z 0) with 0. rewrite !Qmult_0_r. split; apply Qle_refl.
  - rewrite sum_cons, inject_length_cons. lra.
Qed.

Lemma mean_bounds (lo hi : Q) (xs : list Q) :
  (0 < length xs)%nat ->
  Forall (fun x => lo <= x /\ x <= hi) xs ->
  lo <= sum xs / inject_Z (Z.of_nat (length xs))
  /\ sum xs / inject_Z (Z.of_nat (length xs)) <= hi.
Proof.
  intros Hn H. apply sum_bounds in H. destruct H as [Hlo Hhi].
  assert (Hpos : 0 < inject_Z (Z.of_nat (length xs))).
  { change 0 with (inject_Z 0). rewrite <- Zlt_Qlt. lia. }
  split.
  - apply Qle_shift_div_l; assumption.
  - apply Qle_shift_div_r; assumption.
Qed.

Lemma consecutive_diffs_bounds (lo hi : Q) (xs : list Q) :
  Forall (fun x => lo <= x /\ x <= hi) xs ->
  Forall (fun d => 0 <= d /\ d <= hi - lo) (Spec.consecutive_diffs xs).
Proof.
  induction xs as [|x [|y t] IH]; intros H; [constructor | constructor |].
  change (Spec.consecutive_diffs (x :: y :: t))
    with (Qabs (y - x) :: Spec.consecutive_diffs (y :: t)).
  inversion H as [|? ? [Hx1 Hx2] Ht]; subst.
  inversion Ht as [|? ? [Hy1 Hy2] _]; subst.
  constructor; [|now apply IH].
  split; [apply Qabs_nonneg|].
  apply Qabs_Qle_condition. split; lra.
Qed.

Lemma compute_visual_variance_value (frame_paths : list str) :
  compute_visual_variance load frame_paths = Ok 0
  \/ ((2 <= length (Spec.readable_means load frame_paths))%nat
      /\ compute_visual_variance load frame_paths
         = Ok (Spec.mean (Spec.consecutive_diffs
                            (Spec.readable_means load frame_paths)))).
Proof.
  unfold compute_visual_variance.
  destruct (length frame_paths <? 2)%nat; [now left|].
  rewrite frame_averages_readable. cbn [app].
  destruct (length (Spec.readable_means load frame_paths) <? 2)%nat eqn:E;
    [now left|].
  apply Nat.ltb_ge in E. right. split; [exact E|].
  rewrite diffs_consecutive.
  rewrite truediv_count by (rewrite consecutive_diffs_length; lia).
  reflexivity.
Qed.

Lemma sum_nonneg (xs : list Q) : Forall (fun d => 0 <= d) xs -> 0 <= sum xs.
Proof.
  induction 1 as [|x xs Hx _ IH]; [unfold sum; simpl; lra|].
  rewrite sum_cons. lra.
Qed.

Lemma consecutive_diffs_nonneg (xs : list Q) :
  Forall (fun d => 0 <= d) (Spec.consecutive_diffs xs).
Proof.
  induction xs as [|x [|y t] IH]; [constructor | constructor |].
  change (Spec.consecutive_diffs (x :: y :: t))
    with (Qabs (y - x) :: Spec.consecutive_diffs (y :: t)).
  constructor; [apply Qabs_nonneg | exact IH].
Qed.

(** X8. The visual variance is computed for every list of frames and is
    never negative. *)
Theorem compute_visual_variance_nonneg (frame_paths : list str) :
  exists v, compute_visual_variance load frame_paths = Ok v /\ 0 <= v.
Proof.
  destruct (compute_visual_variance_value frame_paths) as [H|[Hn H]];
    rewrite H; eexists; (split; [reflexivity|]); [lra|].
  unfold Spec.mean. apply Qle_shift_div_l.
  - change 0 with (inject_Z 0). rewrite <- Zlt_Qlt.
    rewrite consecutive_diffs_length. lia.
  - rewrite Qmult_0_l. apply sum_nonneg, consecutive_diffs_nonneg.
Qed.

Lemma readable_means_bounds (frame_paths : list str) :
  (forall path pixels x,
      load path = Ok pixels -> In x pixels -> (0 <= x <= 255)%Z) ->
  Forall (fun m => 0 <= m /\ m <= 255)
    (Spec.readable_means load frame_paths).
Proof.
  intros Hpix. induction frame_paths as [|p rest IH]; simpl; [constructor|].
  unfold Spec.mean_luminance.
  destruct (load p) as [[|x pixels]|e] eqn:E; try exact IH.
  constructor; [|exact IH].
  assert (G : forall l acc,
             (forall y, In y l -> (0 <= y <= 255)%Z) ->
             (acc <= fold_left Z.add l acc
              <= acc + 255 * Z.of_nat (length l))%Z).
  { induction l as [|y l IHl]; intros acc Hl; simpl fold_left.
    - simpl. lia.
    - pose proof (Hl y (or_introl eq_refl)).
      pose proof (IHl (acc + y)%Z (fun z Hz => Hl z (or_intror Hz))).
      cbn [length]. lia. }
  specialize (G (x :: pixels) 0%Z (fun y Hy => Hpix p _ y E Hy)).
  fold (sum_int (x :: pixels)) in G.
  assert (Hpos : 0 < inject_Z (Z.of_nat (length (x :: pixels)))).
  { change 0 with (inject_Z 0). rewrite <- Zlt_Qlt. simpl. lia. }
  split.
  - apply Qle_shift_div_l; [exact Hpos|]. rewrite Qmult_0_l.
    change 0 with (inject_Z 0). rewrite <- Zle_Qle. lia.
  - apply Qle_shift_div_r; [exact Hpos|].
    change 255 with (inject_Z 255). rewrite <- inject_Z_mult, <- Zle_Qle. lia.
Qed.

(** X9. When the grey levels of every frame lie between 0 and 255, as
    those of an 8-bit image do, the visual variance is at most 255. *)
Theorem compute_visual_variance_at_most_255 (frame_paths : list str) :
  (forall path pixels x,
      load path = Ok pixels -> In x pixels -> (0 <= x <= 255)%Z) ->
  exists v, compute_visual_variance load frame_paths = Ok v /\ v <= 255.
Proof.
  intros Hpix.
  destruct (compute_visual_variance_value frame_paths) as [H|[Hn H]];
    rewrite H; eexists; (split; [reflexivity|]); [lra|].
  unfold Spec.mean.
  apply (mean_bounds 0 255).
  - rewrite consecutive_diffs_length. lia.
  - pose proof (consecutive_diffs_bounds 0 255 _
                  (readable_means_bounds frame_paths Hpix)) as Hd.
    eapply Forall_impl; [|exact Hd]. intros d [H0 H1]. split; lra.
Qed.

Lemma readable_means_app (a b : list str) :
  Spec.readable_means load (a ++ b)
  = (Spec.readable_means load a ++ Spec.readable_means load b)%list.
Proof.
  induction a as [|p a IH]; simpl; [reflexivity|].
  destruct (Spec.mean_luminance load p); simpl; now rewrite IH.
Qed.

(** X10. A frame that cannot be opened, or that has no pixel, does not
    count: with or without its path in the list, the visual variance is the
    same. *)
Theorem compute_visual_variance_skips_unreadable
    (before after : list str) (path : str) :
  (exists e, load path = Raise e) \/ load path = Ok [] ->
  compute_visual_variance load (before ++ path :: after)
  = compute_visual_variance load (before ++ after).
Proof.
  intros Hbad.
  assert (Hnone : Spec.mean_luminance load path = None).
  { unfold Spec.mean_luminance. destruct Hbad as [[e ->]| ->]; reflexivity. }
  assert (Hm : Spec.readable_means load (before ++ path :: after)
               = Spec.readable_means load (before ++ after)).
  { rewrite !readable_means_app. simpl. now rewrite Hnone. }
  unfold compute_visual_variance.
  rewrite !frame_averages_readable, Hm. cbn [app].
  pose proof (readable_means_length load (before ++ after)) as Hle.
  destruct (length (before ++ after) <? 2)%nat eqn:E2.
  - apply Nat.ltb_lt in E2.
    destruct (length (before ++ path :: after) <? 2)%nat; [reflexivity|].
    replace (length (Spec.readable_means load (before ++ after)) <? 2)%nat
      with true by (symmetry; apply Nat.ltb_lt; lia).
    reflexivity.
  - apply Nat.ltb_ge in E2.
    replace (length (before ++ path :: after) <? 2)%nat with false;
      [reflexivity|].
    symmetry. apply Nat.ltb_ge. rewrite length_app in *. simpl. lia.
Qed.

End VisualVariance.

Section VisualVarianceExamples.

Local Open Scope Q_scope.

Lemma compute_visual_variance_at_most_255_witness :
  exists v,
    compute_visual_variance (fun _ => Ok [0; 255; 255]%Z)
      [lit "frame_001.jpg"; lit "frame_002.jpg"] = Ok v
    /\ v <= 255.
Proof.
  apply (compute_visual_variance_at_most_255 (fun _ => Ok [0; 255; 255]%Z)
           [lit "frame_001.jpg"; lit "frame_002.jpg"]).
  intros path pixels x H Hin. inv H. simpl in Hin. lia.
Defined.

Lemma compute_visual_variance_skips_unreadable_witness :
  compute_visual_variance five_frames
    ([lit "frame_001.jpg"; lit "frame_002.jpg"]
       ++ lit "missing.jpg" :: [lit "frame_003.jpg"])
  = compute_visual_variance five_frames
      ([lit "frame_001.jpg"; lit "frame_002.jpg"] ++ [lit "frame_003.jpg"]).
Proof.
  apply (compute_visual_variance_skips_unreadable five_frames
           [lit "frame_001.jpg"; lit "frame_002.jpg"] [lit "frame_003.jpg"]
           (lit "missing.jpg")).
  left. exists OSError. reflexivity.
Defined.

End VisualVarianceExamples.

(** ** The heuristic bundle *)

Section HeuristicBundle.
Variable U : unicode.
Variable F : float_ops.
Variable load : str -> result (list Z).

Local Open Scope Q_scope.

Lemma word_repetition_ratio_ok (text : str) :
  exists r, word_repetition_ratio U text = Ok r.
Proof.
  unfold word_repetition_ratio. cbv zeta.
  destruct (findall_words U (lower U text)) as [|w ws]; [eauto|].
  rewrite truediv_count by (simpl; lia). cbn [bind]. eauto.
Qed.

Lemma speaking_speed_ok (word_count : Z) (duration : Q) :
  exists v, speaking_speed word_count duration = Ok v.
Proof.
  unfold speaking_speed.
  destruct (Qle_bool duration 0) eqn:E; [eauto|].
  rewrite truediv_nonzero; [eauto|].
  intros E0. assert (H : duration <= 0) by (rewrite E0; apply Qle_refl).
  apply Qle_bool_iff in H. congruence.
Qed.

(** X11. [aggregate_heuristics] never raises, whatever the transcript
    (empty or not), the duration (zero or negative too) and the frames
    (unreadable ones too): it returns the six fields in their fixed order,
    with the word count, which is not negative, the duration as given, and
    the rounded repetition ratio, speed, density and variance. *)
Theorem aggregate_heuristics_total
    (transcript : str) (duration : Q) (frame_paths : list str) :
  exists rep speed variance,
    aggregate_heuristics U F load transcript duration frame_paths
    = Ok [ (lit "word_count",
             Int (Z.of_nat (length (findall_words U transcript))));
           (lit "duration_seconds", Float duration);
           (lit "repetition_ratio", Float (round F rep 4));
           (lit "speaking_speed_wps", Float (round F speed 2));
           (lit "transcript_density_wps", Float (round F speed 2));
           (lit "visual_variance", Float (round F variance 2)) ]
    /\ word_repetition_ratio U transcript = Ok rep
    /\ speaking_speed (Z.of_nat (length (findall_words U transcript)))
         duration = Ok speed
    /\ compute_visual_variance load frame_paths = Ok variance
    /\ (0 <= Z.of_nat (length (findall_words U transcript)))%Z.
Proof.
  destruct (word_repetition_ratio_ok transcript) as [rep Hrep].
  destruct (speaking_speed_ok
              (Z.of_nat (length (findall_words U transcript))) duration)
    as [speed Hspeed].
  assert (Hvar : exists v, compute_visual_variance load frame_paths = Ok v).
  { destruct (compute_visual_variance_value load frame_paths) as [H|[_ H]];
      rewrite H; eauto. }
  destruct Hvar as [variance Hvar].
  exists rep, speed, variance.
  split; [|repeat split; try assumption; lia].
  unfold aggregate_heuristics. cbv zeta.
  rewrite Hrep. cbn [bind]. rewrite Hspeed. cbn [bind].
  change (transcript_density
            (Z.of_nat (length (findall_words U transcript))) duration)
    with (speaking_speed
            (Z.of_nat (length (findall_words U transcript))) duration).
  rewrite Hspeed. cbn [bind]. rewrite Hvar. reflexivity.
Qed.

End HeuristicBundle.

(** ** Frame descriptions *)

Section FrameDescriptions.
Variable vision : nat -> str -> result str.

Lemma describe_from_success (frame_paths : list str) :
  forall k frames,
    describe_video_frames_from vision k frame_paths = Ok frames ->
    length frames = length frame_paths
    /\ forall i path,
         nth_error frame_paths i = Some path ->
         exists text,
           vision (k + i)%nat path = Ok text
           /\ nth_error frames i
              = Some {| frame_path := path;
                        visual_description := strip text |}.
Proof.
  induction frame_paths as [|p rest IH]; intros k frames;
    cbn [describe_video_frames_from].
  - intros H. inv H. split; [reflexivity|]. intros [|i] path; discriminate.
  - destruct (vision k p) as [text|] eqn:Ev; [|discriminate]. cbn [bind].
    destruct (describe_video_frames_from vision (S k) rest) as [results|]
      eqn:E; [|discriminate].
    cbn [bind]. intros H. inv H.
    destruct (IH (S k) results E) as [Hlen Hnth].
    split; [simpl; now rewrite Hlen|].
    intros [|i] path Hi; cbn [nth_error] in *.
    + inv Hi. exists text. now rewrite Nat.add_0_r.
    + destruct (Hnth i path Hi) as [t [Ht Hf]]. exists t.
      now replace (k + S i)%nat with (S k + i)%nat by lia.
Qed.

(** X12. When [describe_video_frames] returns, it returns one description
    per frame, in the order of the frames: the description at a position
    records the path at that position and the reply of the vision model to
    the request of that position, stripped of surrounding white space. *)
Theorem describe_video_frames_in_order
    (frame_paths : list str) (frames : list frame_description) :
  describe_video_frames vision frame_paths = Ok frames ->
  length frames = length frame_paths
  /\ forall i path,
       nth_error frame_paths i = Some path ->
       exists text,
         vision i path = Ok text
         /\ nth_error frames i
            = Some {| frame_path := path; visual_description := strip text |}.
Proof.
  intros H. apply describe_from_success in H. exact H.
Qed.

Lemma describe_from_failure (frame_paths : list str) :
  forall k i path e,
    nth_error frame_paths i = Some path ->
    vision (k + i)%nat path = Raise e ->
    (forall j q, (j < i)%nat -> nth_error frame_paths j = Some q ->
                 exists t, vision (k + j)%nat q = Ok t) ->
    describe_video_frames_from vision k frame_paths = Raise e.
Proof.
  induction frame_paths as [|p rest IH]; intros k [|i] path e Hi Hv Hbefore;
    cbn [nth_error] in Hi; try discriminate;
    cbn [describe_video_frames_from].
  - inv Hi. rewrite Nat.add_0_r in Hv. now rewrite Hv.
  - destruct (Hbefore 0%nat p ltac:(lia) eq_refl) as [t Ht].
    rewrite Nat.add_0_r in Ht. rewrite Ht. cbn [bind].
    rewrite (IH (S k) i path e Hi).
    + reflexivity.
    + now replace (S k + i)%nat with (k + S i)%nat by lia.
    + intros j q Hj Hq.
      replace (S k + j)%nat with (k + S j)%nat by lia.
      apply Hbefore; [lia | exact Hq].
Qed.

(** X13. A failure of the vision model is not caught: when the request for
    some frame raises and the requests before it succeeded,
    [describe_video_frames] raises the same exception and returns no
    description at all. *)
Theorem describe_video_frames_first_failure
    (frame_paths : list str) (i : nat) (path : str) (e : exn) :
  nth_error frame_paths i = Some path ->
  vision i path = Raise e ->
  (forall j q, (j < i)%nat -> nth_error frame_paths j = Some q ->
               exists t, vision j q = Ok t) ->
  describe_video_frames vision frame_paths = Raise e.
Proof.
  intros Hi Hv Hbefore.
  apply (describe_from_failure frame_paths 0 i path e Hi Hv Hbefore).
Qed.

End FrameDescriptions.

Section FrameDescriptionExamples.

Lemma describe_video_frames_in_order_witness :
  length sample_descriptions = length sample_frames
  /\ forall i path,
       nth_error sample_frames i = Some path ->
       exists text,
         vision_b i path = Ok text
         /\ nth_error sample_descriptions i
            = Some {| frame_path := path; visual_description := strip text |}.
Proof.
  apply (describe_video_frames_in_order vision_b sample_frames
           sample_descriptions).
  vm_compute. reflexivity.
Defined.

Lemma describe_video_frames_first_failure_witness :
  describe_video_frames
    (fun k path => if (k =? 1)%nat then Raise OSError else vision_a k path)
    sample_frames
  = Raise OSError.
Proof.
  apply (describe_video_frames_first_failure
           (fun k path => if (k =? 1)%nat then Raise OSError
                          else vision_a k path)
           sample_frames 1 (lit "frames/frame_002.jpg") OSError).
  - reflexivity.
  - reflexivity.
  - intros j q Hj Hq. assert (j = 0)%nat by lia. subst j.
    eexists. reflexivity.
Defined.

End FrameDescriptionExamples.

(** ** The orchestrator *)

Section Orchestrator.
Variable U : unicode.
Variable F : float_ops.
Variable load : str -> result (list Z).
Variable vision : nat -> str -> result str.
Variable generate : str -> str -> result str.

Lemma chunk_transcript_default_ok (transcript : str) :
  exists chunks, chunk_transcript transcript default_chunk_words = Ok chunks.
Proof.
  rewrite chunk_transcript_windows by (unfold default_chunk_words; lia).
  eauto.
Qed.

(** X14. The stages of [run_analysis] that come before the two model
    calls never abort it: for every transcript, duration, language hint and
    list of frames, once the frames are described the heuristics, the chunks
    and the prompt are built without error, and the result of the run is
    the parse of whatever the text model replies to that prompt (or the
    exception of that call).  When describing the frames raises, the run
    raises the same exception. *)
Theorem run_analysis_stages
    (depth : nat) (transcript : str) (duration : Q)
    (language_hint : str) (frame_paths : list str) :
  (forall frames,
      describe_video_frames vision frame_paths = Ok frames ->
      exists heuristics chunks content,
        aggregate_heuristics U F load transcript duration frame_paths
        = Ok heuristics
        /\ chunk_transcript transcript default_chunk_words = Ok chunks
        /\ prompt_content F language_hint duration heuristics frame_paths
             (rolling_summary (build_chunk_notes chunks))
             (build_chunk_notes chunks) frames
           = Ok content
        /\ run_analysis U F load vision generate depth transcript duration
             language_hint frame_paths
           = (reply <- generate system_prompt content ;;
              extract_json depth reply))
  /\ (forall e,
        describe_video_frames vision frame_paths = Raise e ->
        run_analysis U F load vision generate depth transcript duration
          language_hint frame_paths
        = Raise e).
Proof.
  destruct (word_repetition_ratio_ok U transcript) as [rep Hrep].
  destruct (speaking_speed_ok
              (Z.of_nat (length (findall_words U transcript))) duration)
    as [speed Hspeed].
  assert (Hvar : exists v, compute_visual_variance load frame_paths = Ok v).
  { destruct (compute_visual_variance_value load frame_paths) as [H|[_ H]];
      rewrite H; eauto. }
  destruct Hvar as [variance Hvar].
  destruct (chunk_transcript_default_ok transcript) as [chunks Hchunks].
  assert (Hagg : aggregate_heuristics U F load transcript duration frame_paths
    = Ok [ (lit "word_count",
             Int (Z.of_nat (length (findall_words U transcript))));
           (lit "duration_seconds", Float duration);
           (lit "repetition_ratio", Float (round F rep 4));
           (lit "speaking_speed_wps", Float (round F speed 2));
           (lit "transcript_density_wps", Float (round F speed 2));
           (lit "visual_variance", Float (round F variance 2)) ]).
  { unfold aggregate_heuristics. cbv zeta.
    rewrite Hrep. cbn [bind]. rewrite Hspeed. cbn [bind].
    change (transcript_density
              (Z.of_nat (length (findall_words U transcript))) duration)
      with (speaking_speed
              (Z.of_nat (length (findall_words U transcript))) duration).
    rewrite Hspeed. cbn [bind]. rewrite Hvar. reflexivity. }
  split.
  - intros frames Hframes.
    eexists. exists chunks. eexists.
    split; [exact Hagg|]. split; [exact Hchunks|].
    split.
    + unfold prompt_content.
      change (getitem _ (lit "visual_variance"))
        with (Some (Float (round F variance 2))).
      cbn [bind]. reflexivity.
    + unfold run_analysis. rewrite Hagg. cbn [bind].
      rewrite Hchunks. cbn [bind]. cbv zeta. rewrite Hframes. cbn [bind].
      unfold prompt_content.
      change (getitem _ (lit "visual_variance"))
        with (Some (Float (round F variance 2))).
      cbn [bind]. reflexivity.
  - intros e He. unfold run_analysis. rewrite Hagg. cbn [bind].
    rewrite Hchunks. cbn [bind]. cbv zeta. rewrite He. reflexivity.
Qed.

End Orchestrator.

Section OrchestratorExamples.

Lemma run_analysis_stages_witness :
  exists heuristics chunks content,
    aggregate_heuristics ascii_tables decimal_floats five_frames
      (lit "one two") 60 sample_frames = Ok heuristics
    /\ chunk_transcript (lit "one two") default_chunk_words = Ok chunks
    /\ prompt_content decimal_floats (lit "en") 60 heuristics sample_frames
         (rolling_summary (build_chunk_notes chunks))
         (build_chunk_notes chunks) sample_descriptions
       = Ok content
    /\ run_analysis ascii_tables decimal_floats five_frames vision_a
         (fun _ _ => Ok (litq "{'Pace': ['calm']}")) 4 (lit "one two") 60
         (lit "en") sample_frames
       = (reply <- (fun _ _ => Ok (litq "{'Pace': ['calm']}"))
                     system_prompt content ;;
          extract_json 4 reply).
Proof.
  apply (proj1 (run_analysis_stages ascii_tables decimal_floats five_frames
                  vision_a (fun _ _ => Ok (litq "{'Pace': ['calm']}")) 4
                  (lit "one two") 60 (lit "en") sample_frames)
           sample_descriptions).
  vm_compute. reflexivity.
Defined.

End OrchestratorExamples.

(** ** Visual notes *)

Section VisualNotes.

Lemma visual_notes_from_nth (frames : list frame_description) :
  forall idx i frame,
    nth_error frames i = Some frame ->
    nth_error (visual_notes_from idx frames) i
    = Some (lit "Frame " ++ str_of_int (idx + Z.of_nat i) ++ lit ": "
              ++ strip (visual_description frame) ++ [10]).
Proof.
  induction frames as [|f rest IH]; intros idx [|i] frame;
    cbn [nth_error visual_notes_from]; try discriminate.
  - intros H. inv H. now replace (idx + Z.of_nat 0) with idx by lia.
  - intros H. rewrite (IH (idx + 1) i frame H).
    now replace (idx + 1 + Z.of_nat i) with (idx + Z.of_nat (S i)) by lia.
Qed.

(** X15. The frames are labelled by position: the line for the frame at
    position [i] (from 0) is "Frame i+1: " followed by its stripped
    description, whatever its file name.  The summary is the placeholder
    exactly when there is no frame description. *)
Theorem visual_summary_labels (frames : list frame_description) :
  (visual_summary frames = lit "No visual descriptions available."
   <-> frames = [])
  /\ (forall i frame,
        nth_error frames i = Some frame ->
        nth_error (visual_notes_from 1 frames) i
        = Some (lit "Frame " ++ str_of_int (Z.of_nat i + 1) ++ lit ": "
                  ++ strip (visual_description frame) ++ [10])).
Proof.
  split.
  - split.
    + destruct frames as [|f rest]; [reflexivity|].
      unfold visual_summary. cbn [visual_notes_from].
      destruct (visual_notes_from (1 + 1) rest); cbn [join];
        intros H; apply (f_equal (@hd char 0)) in H; discriminate.
    + intros ->. reflexivity.
  - intros i frame H. rewrite (visual_notes_from_nth frames 1 i frame H).
    now rewrite (Z.add_comm 1).
Qed.

Lemma visual_summary_labels_witness :
  nth_error (visual_notes_from 1 sample_descriptions) 1
  = Some (lit "Frame " ++ str_of_int (Z.of_nat 1 + 1) ++ lit ": "
            ++ strip (lit "- bright primary colours") ++ [10]).
Proof.
  apply (proj2 (visual_summary_labels sample_descriptions) 1%nat
           {| frame_path := lit "frames/frame_002.jpg";
              visual_description := lit "- bright primary colours" |}).
  reflexivity.
Defined.

End VisualNotes.

(** ** Frame sampling *)

Section FrameSampling.

Local Open Scope Q_scope.

(** X16. For a positive duration and at least one requested frame, the
    rate handed to ffmpeg is computed without error, is positive and at most
    one frame per second, and over the whole duration it yields at most
    [max_frames] frames: exactly [max_frames] when the video lasts at least
    that many seconds, and one frame per second when it is shorter. *)
Theorem frame_rate_bounds (duration : Q) (max_frames : Z) :
  0 < duration -> (1 <= max_frames)%Z ->
  exists fps,
    frame_rate duration max_frames = Ok fps
    /\ 0 < fps /\ fps <= 1
    /\ fps * duration <= inject_Z max_frames
    /\ (inject_Z max_frames <= duration ->
        fps * duration == inject_Z max_frames)
    /\ (duration <= inject_Z max_frames -> fps == 1).
Proof.
  intros Hd Hm.
  assert (Hmpos : 0 < inject_Z max_frames).
  { change 0 with (inject_Z 0). rewrite <- Zlt_Qlt. lia. }
  assert (Hmnz : ~ inject_Z max_frames == 0) by lra.
  unfold frame_rate. rewrite (truediv_nonzero _ _ Hmnz). cbn [bind].
  set (q := duration / inject_Z max_frames).
  assert (Hq : q * inject_Z max_frames == duration).
  { unfold q. field. exact Hmnz. }
  assert (Hqpos : 0 < q).
  { unfold q. apply Qlt_shift_div_l; [exact Hmpos | lra]. }
  cbv zeta. unfold max. destruct (Qle_bool 1 q) eqn:E.
  - apply Qle_bool_iff in E.
    rewrite truediv_nonzero by lra.
    eexists. split; [reflexivity|].
    assert (Hf : (1 / q) * q == 1) by (field; lra).
    assert (Hfd : 1 / q * duration == inject_Z max_frames).
    { rewrite <- Hq. field. lra. }
    assert (Hfpos : 0 < 1 / q).
    { apply Qlt_shift_div_l; [exact Hqpos | lra]. }
    assert (Hfle : 1 / q <= 1).
    { apply Qle_shift_div_r; [exact Hqpos | lra]. }
    repeat split; try assumption; try lra.
    intros Hle. assert (q <= 1).
    { unfold q. apply Qle_shift_div_r; [exact Hmpos | lra]. }
    assert (Hq1 : q == 1) by lra.
    rewrite Hq1. reflexivity.
  - assert (Hlt : q < 1).
    { destruct (Qlt_le_dec q 1) as [H|H]; [exact H|].
      apply Qle_bool_iff in H. congruence. }
    assert (Hdm : duration < inject_Z max_frames).
    { rewrite <- Hq. rewrite <- (Qmult_1_l (inject_Z max_frames)) at 2.
      apply Qmult_lt_compat_r; assumption. }
    rewrite truediv_nonzero by lra.
    eexists. split; [reflexivity|].
    assert (H1 : 1 / 1 == 1) by reflexivity.
    repeat split; try lra; try (rewrite H1; lra); intros Hle; lra.
Qed.

Lemma frame_rate_bounds_witness :
  exists fps,
    frame_rate 120 5 = Ok fps
    /\ 0 < fps /\ fps <= 1
    /\ fps * 120 <= inject_Z 5
    /\ (inject_Z 5 <= 120 -> fps * 120 == inject_Z 5)
    /\ (120 <= inject_Z 5 -> fps == 1).
Proof.
  apply (frame_rate_bounds 120 5); [reflexivity | lia].
Defined.

End FrameSampling.

Section SampleFrames.
Variable F : float_ops.
Variable float_of_str : str -> result Q.
Variable run : list str -> result str.
Variable mkdir : str -> result unit.
Variable joinpath : str -> str -> str.
Variable glob_frames : str -> result (list str).

Local Open Scope Q_scope.

(** X17. A duration that is not positive means that frames cannot be
    spaced: whenever the probe gives 0 or less, and in particular when
    ffprobe prints nothing but white space, which is read as 0,
    [sample_frames] raises the ValueError of the unknown duration, for every
    number of frames and whatever ffmpeg would do. *)
Theorem sample_frames_unknown_duration
    (video_path frames_dir : str) (max_frames : Z) :
  mkdir frames_dir = Ok tt ->
  (forall duration,
      get_video_duration float_of_str run video_path = Ok duration ->
      duration <= 0 ->
      VideoUtils.sample_frames F float_of_str run mkdir joinpath glob_frames
        video_path frames_dir max_frames
      = Raise (ValueError msg_no_duration))
  /\ (forall stdout,
        run [ lit "ffprobe"; lit "-v"; lit "error"; lit "-show_entries";
              lit "format=duration"; lit "-of";
              lit "default=noprint_wrappers=1:nokey=1"; video_path ]
        = Ok stdout ->
        strip stdout = [] ->
        get_video_duration float_of_str run video_path = Ok 0
        /\ VideoUtils.sample_frames F float_of_str run mkdir joinpath glob_frames
             video_path frames_dir max_frames
           = Raise (ValueError msg_no_duration)).
Proof.
  intros Hmk.
  assert (G : forall duration,
      get_video_duration float_of_str run video_path = Ok duration ->
      duration <= 0 ->
      VideoUtils.sample_frames F float_of_str run mkdir joinpath glob_frames
        video_path frames_dir max_frames
      = Raise (ValueError msg_no_duration)).
  { intros duration Hdur Hle. unfold VideoUtils.sample_frames.
    rewrite Hmk. cbn [bind]. rewrite Hdur. cbn [bind].
    apply Qle_bool_iff in Hle. now rewrite Hle. }
  split; [exact G|].
  intros stdout Hrun Hblank.
  assert (Hdur : get_video_duration float_of_str run video_path = Ok 0).
  { unfold get_video_duration. rewrite Hrun. cbn [bind].
    now rewrite Hblank. }
  split; [exact Hdur|]. apply (G 0 Hdur). apply Qle_refl.
Qed.

(** X18. Asking for zero frames of a video of known, positive duration
    makes [sample_frames] raise ZeroDivisionError: the interval between
    frames divides the duration by the number of frames. *)
Theorem sample_frames_zero_frames
    (video_path frames_dir : str) (duration : Q) :
  mkdir frames_dir = Ok tt ->
  get_video_duration float_of_str run video_path = Ok duration ->
  0 < duration ->
  VideoUtils.sample_frames F float_of_str run mkdir joinpath glob_frames
    video_path frames_dir 0
  = Raise ZeroDivisionError.
Proof.
  intros Hmk Hdur Hpos. unfold VideoUtils.sample_frames.
  rewrite Hmk. cbn [bind]. rewrite Hdur. cbn [bind].
  destruct (Qle_bool duration 0) eqn:E.
  - apply Qle_bool_iff in E. lra.
  - reflexivity.
Qed.

End SampleFrames.

Section SampleFramesExamples.

Local Open Scope Q_scope.

Lemma sample_frames_unknown_duration_witness :
  get_video_duration (fun _ => Ok 0) (fun _ => Ok [10%Z]) (lit "clip.mp4")
  = Ok 0
  /\ VideoUtils.sample_frames decimal_floats (fun _ => Ok 0) (fun _ => Ok [10%Z])
       (fun _ => Ok tt) (fun d n => d ++ lit "/" ++ n)%list (fun _ => Ok [])
       (lit "clip.mp4") (lit "frames") 5
     = Raise (ValueError msg_no_duration).
Proof.
  apply (proj2 (sample_frames_unknown_duration decimal_floats
                  (fun _ => Ok 0) (fun _ => Ok [10%Z]) (fun _ => Ok tt)
                  (fun d n => d ++ lit "/" ++ n)%list (fun _ => Ok [])
                  (lit "clip.mp4") (lit "frames") 5 eq_refl) [10%Z]);
    reflexivity.
Defined.

Lemma sample_frames_zero_frames_witness :
  VideoUtils.sample_frames decimal_floats (fun _ => Ok 30) (fun _ => Ok (lit "30.0"))
    (fun _ => Ok tt) (fun d n => d ++ lit "/" ++ n)%list (fun _ => Ok [])
    (lit "clip.mp4") (lit "frames") 0
  = Raise ZeroDivisionError.
Proof.
  apply (sample_frames_zero_frames decimal_floats
           (fun _ => Ok 30) (fun _ => Ok (lit "30.0")) (fun _ => Ok tt)
           (fun d n => d ++ lit "/" ++ n)%list (fun _ => Ok [])
           (lit "clip.mp4") (lit "frames") 30);
    reflexivity.
Defined.

End SampleFramesExamples.

(** ** Stripped descriptions *)

Section Stripped.

Lemma lstrip_suffix (s : str) : exists w, s = w ++ lstrip s.
Proof.
  induction s as [|c t [w IH]]; [now exists []|]. simpl.
  destruct (isspace c); [|now exists []].
  exists (c :: w). simpl. now rewrite <- IH.
Qed.

Lemma lstrip_head (s : str) :
  match lstrip s with
  | [] => True
  | c :: _ => isspace c = false
  end.
Proof.
  induction s as [|c t IH]; simpl; [exact I|].
  destruct (isspace c) eqn:E; [exact IH | exact E].
Qed.

Lemma lstrip_fixed (s : str) :
  match s with
  | [] => True
  | c :: _ => isspace c = false
  end -> lstrip s = s.
Proof. destruct s as [|c t]; simpl; [reflexivity|]. now intros ->. Qed.

Lemma lstrip_idempotent (s : str) : lstrip (lstrip s) = lstrip s.
Proof. apply lstrip_fixed, lstrip_head. Qed.

(** A stripped text does not start with white space, and stripping is
    idempotent. *)
Lemma lstrip_strip (s : str) : lstrip (strip s) = strip s.
Proof.
  unfold strip. set (a := lstrip s).
  apply lstrip_fixed.
  destruct (lstrip_suffix (rev a)) as [w Hw].
  assert (Ha : a = rev (lstrip (rev a)) ++ rev w).
  { rewrite <- rev_app_distr, <- Hw. now rewrite rev_involutive. }
  pose proof (lstrip_head s) as Hh. fold a in Hh.
  destruct (rev (lstrip (rev a))) as [|c t]; [exact I|].
  rewrite Ha in Hh. exact Hh.
Qed.

Lemma strip_idempotent (s : str) : strip (strip s) = strip s.
Proof.
  unfold strip at 1. rewrite lstrip_strip.
  unfold strip. now rewrite rev_involutive, lstrip_idempotent.
Qed.

(** X19. The descriptions that [describe_video_frames] returns carry no
    white space at either end: stripping them again, as the prompt assembly
    does, leaves them as they are. *)
Theorem describe_video_frames_stripped
    (vision : nat -> str -> result str) (frame_paths : list str)
    (frames : list frame_description) :
  describe_video_frames vision frame_paths = Ok frames ->
  Forall (fun frame =>
            strip (visual_description frame) = visual_description frame
            /\ lstrip (visual_description frame) = visual_description frame)
    frames.
Proof.
  unfold describe_video_frames. generalize 0%nat. revert frames.
  induction frame_paths as [|p rest IH]; intros frames k;
    cbn [describe_video_frames_from].
  - intros H. inv H. constructor.
  - destruct (vision k p) as [text|]; [|discriminate]. cbn [bind].
    destruct (describe_video_frames_from vision (S k) rest) as [results|]
      eqn:E; [|discriminate].
    cbn [bind]. intros H. inv H.
    constructor; [|now apply (IH results (S k))].
    cbn [visual_description].
    split; [apply strip_idempotent | apply lstrip_strip].
Qed.

Lemma describe_video_frames_stripped_witness :
  Forall (fun frame =>
            strip (visual_description frame) = visual_description frame
            /\ lstrip (visual_description frame) = visual_description frame)
    sample_descriptions.
Proof.
  apply (describe_video_frames_stripped vision_a Aux.sample_frames
           sample_descriptions).
  vm_compute. reflexivity.
Defined.

End Stripped.

(** ** Chunk notes in the prompt *)

Section NotesInPrompt.
Variable F : float_ops.

Lemma join_line_inside (sep : str) (head tail notes : list str) (note : str) :
  head <> [] -> tail <> [] -> In note notes ->
  exists pre post,
    join sep (head ++ notes ++ tail) = pre ++ sep ++ note ++ sep ++ post.
Proof.
  intros Hh Ht Hin. apply in_split in Hin. destruct Hin as [n1 [n2 ->]].
  replace (head ++ (n1 ++ note :: n2) ++ tail)
    with ((head ++ n1) ++ note :: (n2 ++ tail))
    by (now rewrite <- !app_assoc).
  rewrite join_app.
  - exists (join sep (head ++ n1)), (join sep (n2 ++ tail)).
    destruct (n2 ++ tail) as [|y ys] eqn:E.
    + apply app_eq_nil in E. destruct E as [_ E]. contradiction.
    + change (join sep (note :: y :: ys))
        with (note ++ sep ++ join sep (y :: ys)).
      reflexivity.
  - destruct head; [contradiction | discriminate].
  - discriminate.
Qed.

(** X20. Every chunk note is a line of the prompt, not only the last four
    that make the rolling summary: the prompt holds each note between two
    newlines, so it grows with the number of chunks. *)
Theorem prompt_content_holds_every_note
    (language_hint : str) (duration : Q)
    (heuristics : list (str * number)) (frame_paths : list str)
    (rolling : str) (chunk_notes : list str)
    (frame_descriptions : list frame_description) (content note : str) :
  prompt_content F language_hint duration heuristics frame_paths rolling
    chunk_notes frame_descriptions = Ok content ->
  In note chunk_notes ->
  exists pre post, content = pre ++ [10] ++ note ++ [10] ++ post.
Proof.
  intros H Hin.
  assert (G : exists head tail,
             head <> [] /\ tail <> []
             /\ content = join [10] (head ++ chunk_notes ++ tail)).
  { unfold prompt_content in H.
    destruct (getitem heuristics (lit "visual_variance")) as [x|];
      [|discriminate].
    unfold bind in H. cbv beta iota zeta in H.
    apply (f_equal (fun r => match r with Ok c => c | Raise _ => [] end))
      in H.
    cbv beta iota in H.
    eexists. eexists. split; [|split]; cycle 2;
      [symmetry; exact H | discriminate | discriminate]. }
  destruct G as [head [tail [Hh [Ht ->]]]].
  now apply join_line_inside.
Qed.

End NotesInPrompt.

Section NotesInPromptExamples.

Lemma prompt_content_holds_every_note_witness :
  exists pre post,
    match prompt_content decimal_floats (lit "en") 60 sample_heuristics
            Aux.sample_frames (lit "n5") [lit "n1"; lit "n2"; lit "n3";
                                          lit "n4"; lit "n5"]
            sample_descriptions with
    | Ok content => content
    | Raise _ => []
    end = pre ++ [10] ++ lit "n1" ++ [10] ++ post.
Proof.
  apply (prompt_content_holds_every_note decimal_floats (lit "en") 60
           sample_heuristics Aux.sample_frames (lit "n5")
           [lit "n1"; lit "n2"; lit "n3"; lit "n4"; lit "n5"]
           sample_descriptions).
  - vm_compute. reflexivity.
  - left. reflexivity.
Defined.

End NotesInPromptExamples.

(** ** A video without speech *)

Section SilentVideo.
Variable U : unicode.
Variable F : float_ops.
Variable load : str -> result (list Z).

Local Open Scope Q_scope.

(** X21. An empty transcript goes through: for every duration and every
    list of frames the heuristics are computed, with a word count of 0, a
    repetition ratio of 0 and a speaking speed and density of 0 before
    rounding; the transcript makes no chunk, and the rolling summary is the
    placeholder. *)
Theorem empty_transcript_heuristics
    (duration : Q) (frame_paths : list str) :
  exists speed variance,
    aggregate_heuristics U F load [] duration frame_paths
    = Ok [ (lit "word_count", Int 0);
           (lit "duration_seconds", Float duration);
           (lit "repetition_ratio", Float (round F 0 4));
           (lit "speaking_speed_wps", Float (round F speed 2));
           (lit "transcript_density_wps", Float (round F speed 2));
           (lit "visual_variance", Float (round F variance 2)) ]
    /\ speed == 0
    /\ compute_visual_variance load frame_paths = Ok variance
    /\ chunk_transcript [] default_chunk_words = Ok []
    /\ rolling_summary (build_chunk_notes []) = lit "No transcript available".
Proof.
  assert (Hspeed : exists speed,
             speaking_speed 0 duration = Ok speed /\ speed == 0).
  { unfold speaking_speed. destruct (Qle_bool duration 0) eqn:E.
    - exists 0. split; reflexivity.
    - rewrite truediv_nonzero.
      + eexists. split; [reflexivity|]. unfold Qdiv. apply Qmult_0_l.
      + intros E0. assert (H : duration <= 0) by (rewrite E0; apply Qle_refl).
        apply Qle_bool_iff in H. congruence. }
  destruct Hspeed as [speed [Hspeed Hzero]].
  assert (Hvar : exists v, compute_visual_variance load frame_paths = Ok v).
  { destruct (compute_visual_variance_value load frame_paths) as [H|[_ H]];
      rewrite H; eauto. }
  destruct Hvar as [variance Hvar].
  exists speed, variance.
  split; [|repeat split; assumption].
  unfold aggregate_heuristics, word_repetition_ratio. cbv zeta.
  rewrite lower_empty.
  change (findall_words U []) with (@nil str).
  cbn [bind length Z.of_nat].
  change (transcript_density 0 duration) with (speaking_speed 0 duration).
  rewrite Hspeed. cbn [bind]. rewrite Hvar. reflexivity.
Qed.

End SilentVideo.
